(** * MMAS dictionary engine: [pkg/dict/dict.go]

    A shallow embedding of the dictionary engine of the SDCH proxy:
    content-defined chunking of response bodies ([parse]), the chunk table
    with its upsert statement ([sqlUpSert]) and its popular-chunks query,
    the change detection ([needToUpdate]), the dictionary write
    ([makeDict]) and the ingest entry point ([Eat]).

    Go values are modelled as follows.
    - [[]byte] is [list byte]; a nil slice and an empty slice are both [[]]
      (the code only ever tests [len] and [bytes.Compare], which do not
      tell them apart).
    - [uint64] counters are [Z] with the wrap-around modulo 2^64 written out.
    - [float64] is the primitive binary64 type of the kernel.
    - [error] is a message string; a call that can fail takes its outcome
      from the environment record [Env].
    - The SQLite table [chunks] is the list of its rows. *)

From Stdlib Require Import ZArith NArith List Bool Lia.
From Stdlib.Strings Require String.
From Stdlib.Numbers Require DecimalString.
From Stdlib.Strings Require Import Byte.
From Stdlib Require Import Permutation Sorted.
From Stdlib Require Import Floats Uint63.
Import ListNotations.

Open Scope Z_scope.

(** ** Bytes *)

Definition bytes : Type := list byte.

Definition byte_of_Z (z : Z) : byte :=
  match Byte.of_N (Z.to_N (z mod 256)) with
  | Some b => b
  | None => x00
  end.

Definition Z_of_byte (b : byte) : Z := Z.of_N (Byte.to_N b).

(** [bytes.Compare]: lexicographic comparison of unsigned bytes, a proper
    prefix sorting first; the result is -1, 0 or +1. *)
Fixpoint bytes_Compare (a b : bytes) : Z :=
  match a, b with
  | [], [] => 0
  | [], _ :: _ => -1
  | _ :: _, [] => 1
  | x :: a', y :: b' =>
      match N.compare (Byte.to_N x) (Byte.to_N y) with
      | Lt => -1
      | Gt => 1
      | Eq => bytes_Compare a' b'
      end
  end.

(** ** [crypto/sha1]

    [sha1.Sum] of the Go standard library, FIPS 180-4.  Words are 32-bit
    values in [Z]; every addition is reduced modulo 2^32. *)
Module Sha1.

Definition mask32 (x : Z) : Z := Z.land x 0xFFFFFFFF.

Definition add32 (x y : Z) : Z := mask32 (x + y).

Definition rotl (n x : Z) : Z :=
  mask32 (Z.lor (Z.shiftl x n) (Z.shiftr x (32 - n))).

Definition not32 (x : Z) : Z := Z.lxor x 0xFFFFFFFF.

(** Big-endian encoding of [x] on [n] bytes. *)
Fixpoint be_bytes (n : nat) (x : Z) : list Z :=
  match n with
  | O => []
  | S n' => be_bytes n' (Z.shiftr x 8) ++ [Z.land x 0xFF]
  end.

Definition be_word (bs : list Z) : Z :=
  fold_left (fun acc b => Z.lor (Z.shiftl acc 8) b) bs 0.

(** Message padding: a 1 bit, zeros up to 56 modulo 64, then the bit
    length on 8 bytes. *)
Definition pad (msg : list Z) : list Z :=
  let len := Z.of_nat (length msg) in
  let zeros := Z.to_nat ((55 - len) mod 64) in
  msg ++ [0x80] ++ repeat 0 zeros ++ be_bytes 8 (8 * len).

(** The words of a block, four bytes each. *)
Fixpoint words (n : nat) (bs : list Z) : list Z :=
  match n with
  | O => []
  | S n' => be_word (firstn 4 bs) :: words n' (skipn 4 bs)
  end.

(** Message schedule: [recent] holds the last sixteen words, newest
    first; [n] more words are produced. *)
Fixpoint schedule (n : nat) (recent : list Z) : list Z :=
  match n with
  | O => []
  | S n' =>
      let w := rotl 1 (Z.lxor (Z.lxor (nth 2 recent 0) (nth 7 recent 0))
                              (Z.lxor (nth 13 recent 0) (nth 15 recent 0))) in
      w :: schedule n' (w :: firstn 15 recent)
  end.

Definition State : Type := Z * Z * Z * Z * Z.

Definition round (t : Z) (w : Z) (s : State) : State :=
  let '(a, b, c, d, e) := s in
  let '(f, k) :=
    if t <? 20 then (Z.lor (Z.land b c) (Z.land (not32 b) d), 0x5A827999)
    else if t <? 40 then (Z.lxor (Z.lxor b c) d, 0x6ED9EBA1)
    else if t <? 60 then
      (Z.lor (Z.lor (Z.land b c) (Z.land b d)) (Z.land c d), 0x8F1BBCDC)
    else (Z.lxor (Z.lxor b c) d, 0xCA62C1D6) in
  let temp := add32 (add32 (add32 (add32 (rotl 5 a) f) e) k) w in
  (temp, a, rotl 30 b, c, d).

Fixpoint rounds (t : Z) (ws : list Z) (s : State) : State :=
  match ws with
  | [] => s
  | w :: ws' => rounds (t + 1) ws' (round t w s)
  end.

Definition block (s : State) (blk : list Z) : State :=
  let w16 := words 16 blk in
  let ws := w16 ++ schedule 64 (rev w16) in
  let '(a, b, c, d, e) := rounds 0 ws s in
  let '(h0, h1, h2, h3, h4) := s in
  (add32 h0 a, add32 h1 b, add32 h2 c, add32 h3 d, add32 h4 e).

Fixpoint blocks (n : nat) (bs : list Z) (s : State) : State :=
  match n with
  | O => s
  | S n' => blocks n' (skipn 64 bs) (block s (firstn 64 bs))
  end.

Definition init : State :=
  (0x67452301, 0xEFCDAB89, 0x98BADCFE, 0x10325476, 0xC3D2E1F0).

Definition digest (msg : list Z) : list Z :=
  let padded := pad msg in
  let '(h0, h1, h2, h3, h4) :=
    blocks (length padded / 64)%nat padded init in
  be_bytes 4 h0 ++ be_bytes 4 h1 ++ be_bytes 4 h2 ++ be_bytes 4 h3
    ++ be_bytes 4 h4.

Definition Sum (data : bytes) : bytes :=
  map byte_of_Z (digest (map Z_of_byte data)).

End Sha1.

(** ** Go built-ins used by the package *)

(** [uint64] increment. *)
Definition uint64_incr (x : Z) : Z := (x + 1) mod 2 ^ 64.

Definition uint64_add (x y : Z) : Z := (x + y) mod 2 ^ 64.

(** [copy(dst, src)]: overwrites the first [min (len dst) (len src)]
    elements of [dst]; the length of [dst] does not change. *)
Definition go_copy {A : Type} (dst src : list A) : list A :=
  firstn (length dst) src ++ skipn (length src) dst.

(** [copy(dst[from:], src)] seen from [dst]: the slice expression shares
    the backing array, so the write lands in [dst] from index [from] on. *)
Definition go_copy_at {A : Type} (dst : list A) (from : nat) (src : list A)
  : list A :=
  firstn from dst ++ go_copy (skipn from dst) src.

(** [sort.Sort]: the data ends up in ascending order of [Less].  The
    library's algorithm is not stable; insertion is used here, and
    [sorted_permutation_unique] below shows that for [sliceslice] every
    sorted rearrangement is the same list. *)
Section Sort.
Context {A : Type} (less : A -> A -> bool).

Fixpoint insert_sorted (x : A) (l : list A) : list A :=
  match l with
  | [] => [x]
  | y :: l' => if less x y then x :: y :: l' else y :: insert_sorted x l'
  end.

Definition sort_Sort (l : list A) : list A :=
  fold_right insert_sorted [] l.

(** [a] may stand before [b] in sorted data. *)
Definition ordered (a b : A) : Prop := less b a = false.
End Sort.

(** [sliceslice.Less]. *)
Definition sliceslice_Less (a b : bytes) : bool := bytes_Compare a b <? 0.

(** [float64(n)] for a non-negative [int]. *)
Definition float64_of_int (n : Z) : float :=
  PrimFloat.of_uint63 (Uint63.of_Z n).

(** ** [camlistore.org/pkg/rollsum]

    The rolling checksum is imported from another repository; the package
    uses three entry points of it, which are taken as an interface. *)
Class RollSumLib : Type := {
  RollSum : Type;
  rollsum_New : RollSum;
  Roll : RollSum -> byte -> RollSum;
  OnSplitWithBits : RollSum -> Z -> bool
}.

(** ** The table [chunks]

    [CREATE TABLE chunks (content BLOB, hash BLOB UNIQUE ON CONFLICT
    REPLACE, count INTEGER)].  The count is an SQLite integer; it is only
    ever written by [sqlUpSert], one step at a time, and is kept unbounded
    here. *)
Record Row : Type := mkRow {
  content : bytes;
  hash : bytes;
  count : Z
}.

Definition Table : Type := list Row.

Definition blob_eqb (a b : bytes) : bool := bytes_Compare a b =? 0.

(** [(SELECT count FROM chunks WHERE hash = ?)] as a scalar subquery:
    the count of the first matching row, NULL when there is none. *)
Fixpoint select_count (t : Table) (h : bytes) : option Z :=
  match t with
  | [] => None
  | r :: t' => if blob_eqb (hash r) h then Some (count r) else select_count t' h
  end.

(** [sqlUpSert], with its three placeholders in order.  [COALESCE] picks
    [1 + count] when the subquery finds a row and [1] otherwise; [INSERT OR
    REPLACE] deletes the rows whose hash collides with the new one before
    it inserts. *)
Definition sqlUpSert (t : Table) (p1 p2 p3 : bytes) : Table :=
  let cnt :=
    match select_count t p3 with
    | Some c => 1 + c
    | None => 1
    end in
  filter (fun r => negb (blob_eqb (hash r) p2)) t ++ [mkRow p1 p2 cnt].

(** [ORDER BY count, hash DESC]: does [r1] sort strictly before [r2]? *)
Definition order_before (r1 r2 : Row) : bool :=
  (count r1 <? count r2)
  || ((count r1 =? count r2) && (0 <? bytes_Compare (hash r1) (hash r2))).

(** [SELECT hash, content FROM chunks WHERE COUNT > 1 ORDER BY count, hash
    DESC]: the rows that pass the filter, in the order of the result. *)
Definition popular_rows (t : Table) : list Row :=
  sort_Sort order_before (filter (fun r => 1 <? count r) t).

(** The result set of that query: the two selected columns. *)
Definition popularChunks (t : Table) : list (bytes * bytes) :=
  map (fun r => (hash r, content r)) (popular_rows t).

(** ** State and environment *)

Definition error : Type := String.string.

(** Everything the package reads and writes: the fields of [Dict], the
    two files it owns and the goroutines it has started. *)
Record World : Type := mkWorld {
  chunks : Table;                 (* committed rows of [d.db] *)
  sdchDictChunks : list bytes;    (* [d.sdchDictChunks] *)
  totalBytesDup : Z;              (* [d.totalBytesDup] *)
  totalBytesIn : Z;               (* [d.totalBytesIn] *)
  dictraw : option bytes;         (* the file "dictraw", [None] if absent *)
  goroutines : list bytes         (* arguments of the [go func] started *)
}.

Definition set_chunks (w : World) (t : Table) : World :=
  mkWorld t (sdchDictChunks w) (totalBytesDup w) (totalBytesIn w)
    (dictraw w) (goroutines w).

Definition set_sdchDictChunks (w : World) (hs : list bytes) : World :=
  mkWorld (chunks w) hs (totalBytesDup w) (totalBytesIn w)
    (dictraw w) (goroutines w).

Definition set_totalBytesDup (w : World) (n : Z) : World :=
  mkWorld (chunks w) (sdchDictChunks w) n (totalBytesIn w)
    (dictraw w) (goroutines w).

Definition set_totalBytesIn (w : World) (n : Z) : World :=
  mkWorld (chunks w) (sdchDictChunks w) (totalBytesDup w) n
    (dictraw w) (goroutines w).

Definition set_dictraw (w : World) (f : option bytes) : World :=
  mkWorld (chunks w) (sdchDictChunks w) (totalBytesDup w) (totalBytesIn w)
    f (goroutines w).

Definition spawn (w : World) (arg : bytes) : World :=
  mkWorld (chunks w) (sdchDictChunks w) (totalBytesDup w) (totalBytesIn w)
    (dictraw w) (goroutines w ++ [arg]).

(** Outcomes of the calls that leave the process.  [None] is success.
    [cmd_Run] is the [vcdiff] child process, fed the content on its input
    and reading the file "dictraw" itself.  [stmt_Exec n] is the outcome of
    the [n]-th [Exec] of a transaction.  A failed [ioutil.WriteFile] also
    says what it left in the file. *)
Record Env : Type := mkEnv {
  cmd_Run : option bytes -> bytes -> bytes + error;
  db_Begin : option error;
  tx_Prepare : option error;
  stmt_Exec : nat -> option error;
  stmt_Close : option error;
  tx_Commit : option error;
  db_Query : option error;
  rows_Err : option error;
  ioutil_WriteFile : option (option bytes * error)
}.

(** ** The package functions *)

Section Package.
Context {rollsum : RollSumLib}.
Variable env : Env.

(** *** [needToUpdate] *)

(** The loop over [rows.Next()]: [contents] and [hashes] grow by one
    row at a time. *)
Definition scan_rows (rows : list (bytes * bytes)) : bytes * list bytes :=
  fold_left
    (fun (acc : bytes * list bytes) (row : bytes * bytes) =>
       let '(contents, hashes) := acc in
       let '(hash, content) := row in
       (contents ++ content, hashes ++ [hash]))
    rows ([], []).

(** [all] after [make] and the two [copy] calls.  The second [copy]
    has [all[len(all):]] for destination. *)
Definition combined (active hashes : list bytes) : list bytes :=
  let all := repeat ([] : bytes) (length active + length hashes) in
  let all := go_copy all active in
  go_copy_at all (length all) hashes.

(** The loop over [all[1:]]; the result is the final [uniq].  [isDup]
    is assigned in one place only, where it becomes true. *)
Fixpoint count_uniq (last : bytes) (uniq : Z) (isDup : bool)
    (rest : list bytes) : Z :=
  match rest with
  | [] => uniq
  | fromAll :: rest' =>
      if bytes_Compare last fromAll =? 0
      then count_uniq last uniq true rest'
      else count_uniq fromAll (if isDup then uniq else uniq + 1) isDup rest'
  end.

(** [uniq] for a sorted [all].  [all[0]] exists whenever the function
    gets this far, since [d.sdchDictChunks] is not empty then. *)
Definition uniq_of (all : list bytes) : Z :=
  match all with
  | [] => 0
  | last :: rest => count_uniq last 0 false rest
  end.

(** [float64(uniq)/float64(len(d.sdchDictChunks))]. *)
Definition ratio (uniq : Z) (active : list bytes) : float :=
  PrimFloat.div (float64_of_int uniq)
                (float64_of_int (Z.of_nat (length active))).

(** [float64(0.1)]: the binary64 value nearest to one tenth. *)
#[warnings="-inexact-float"]
Definition threshold : float := 0.1%float.

(** The value of [change] on the last line. *)
Definition exceeds_threshold (uniq : Z) (active : list bytes) : bool :=
  PrimFloat.ltb threshold (ratio uniq active).

(** Returns the world (the bootstrap branch assigns
    [d.sdchDictChunks]) and the triple [(contents, hashes, change)]. *)
Definition needToUpdate (w : World) : World * (bytes * list bytes * bool) :=
  match db_Query env with
  | Some _ => (w, ([], [], false))
  | None =>
      let '(contents, hashes) := scan_rows (popularChunks (chunks w)) in
      match rows_Err env with
      | Some _ => (w, ([], [], false))
      | None =>
          if (length (sdchDictChunks w) =? 0)%nat
          then (set_sdchDictChunks w hashes, ([], [], false))
          else
            let all :=
              sort_Sort sliceslice_Less
                (combined (sdchDictChunks w) hashes) in
            let uniq := uniq_of all in
            (w, (contents, hashes,
                 exceeds_threshold uniq (sdchDictChunks w)))
      end
  end.

(** *** [makeDict] *)

Definition makeDict (w : World) : World * option error :=
  let '(w, (contents, hashes, change)) := needToUpdate w in
  if change then
    match ioutil_WriteFile env with
    | Some (remains, err) => (set_dictraw w remains, Some err)
    | None => (set_sdchDictChunks (set_dictraw w (Some contents)) hashes, None)
    end
  else (w, None).

(** *** [parse] *)

(** The variables of the loop that are read again: the checksum, the
    pending bytes, the rows as the open transaction sees them, the
    counter [d.totalBytesIn] and the number of [Exec] calls made.
    ([off], [offs] and [hashes] are written and never read.) *)
Record LoopVars : Type := mkLoop {
  rs : RollSum;
  buf : bytes;
  tx : Table;
  bytesIn : Z;
  execs : nat
}.

Fixpoint parse_loop (q : bytes) (v : LoopVars) : LoopVars * option error :=
  match q with
  | [] => (v, None)
  | b :: q' =>
      let rs' := Roll (rs v) b in
      let bytesIn' := uint64_incr (bytesIn v) in
      let buf' := buf v ++ [b] in
      if OnSplitWithBits rs' 5 then
        let h := Sha1.Sum buf' in
        match stmt_Exec env (execs v) with
        | Some err => (mkLoop rs' buf' (tx v) bytesIn' (execs v), Some err)
        | None =>
            parse_loop q'
              (mkLoop rs' [] (sqlUpSert (tx v) buf' h h) bytesIn'
                 (S (execs v)))
        end
      else parse_loop q' (mkLoop rs' buf' (tx v) bytesIn' (execs v))
  end.

(** The rows written inside the transaction reach [chunks] at
    [tx.Commit]; on every earlier return the transaction is left open
    and the committed rows are the old ones.  The two returns after the
    loop hand back [err], which [tx.Prepare] left nil. *)
Definition parse (w : World) (content : bytes) : World * option error :=
  match db_Begin env with
  | Some err => (w, Some err)
  | None =>
      match tx_Prepare env with
      | Some err => (w, Some err)
      | None =>
          let '(v, failed) :=
            parse_loop content
              (mkLoop rollsum_New [] (chunks w) (totalBytesIn w) 0%nat) in
          let w := set_totalBytesIn w (bytesIn v) in
          match failed with
          | Some err => (w, Some err)
          | None =>
              let w := set_totalBytesDup w (uint64_add (totalBytesDup w) 0) in
              match stmt_Close env with
              | Some _ => (w, None)
              | None =>
                  match tx_Commit env with
                  | Some _ => (w, None)
                  | None => makeDict (set_chunks w (tx v))
                  end
              end
          end
      end
  end.

(** *** [Eat] *)

Definition Eat (w : World) (content : bytes) : World * (bytes + error) :=
  match cmd_Run env (dictraw w) content with
  | inr err => (w, inr err)
  | inl diff => (spawn w content, inl diff)
  end.

(** *** The chunks of a content

    What the loop of [parse] cuts: the chunks closed by a boundary, in
    order, and the bytes left in [buf] at the end. *)
Fixpoint split_from (r : RollSum) (pending : bytes) (q : bytes)
  : list bytes * bytes :=
  match q with
  | [] => ([], pending)
  | b :: q' =>
      let r' := Roll r b in
      if OnSplitWithBits r' 5 then
        let '(cs, rest) := split_from r' [] q' in
        ((pending ++ [b]) :: cs, rest)
      else split_from r' (pending ++ [b]) q'
  end.

Definition chunks_of (content : bytes) : list bytes :=
  fst (split_from rollsum_New [] content).

Definition trailing_of (content : bytes) : bytes :=
  snd (split_from rollsum_New [] content).

(** The boundary test after the last byte of [content]. *)
Definition ends_on_boundary (content : bytes) : bool :=
  OnSplitWithBits (fold_left Roll content rollsum_New) 5.

(** One upsert, as [parse] issues it for a chunk. *)
Definition upsert (t : Table) (chunk : bytes) : Table :=
  sqlUpSert t chunk (Sha1.Sum chunk) (Sha1.Sum chunk).

(** [parse] called [n] times in a row on the same content. *)
Definition ingest_times (n : nat) (content : bytes) (w : World) : World :=
  Nat.iter n (fun w => fst (parse w content)) w.

End Package.

(** ** Vocabulary of the properties *)

(** The database calls of [parse] all succeed. *)
Definition db_writes_succeed (env : Env) : Prop :=
  db_Begin env = None /\ tx_Prepare env = None /\
  (forall n, stmt_Exec env n = None) /\
  stmt_Close env = None /\ tx_Commit env = None.

(** The query of [needToUpdate] succeeds and its rows are all read. *)
Definition db_query_succeeds (env : Env) : Prop :=
  db_Query env = None /\ rows_Err env = None.

(** The count recorded for a hash, 0 when the table has no row for it. *)
Definition count_of (t : Table) (h : bytes) : Z :=
  match select_count t h with
  | Some c => c
  | None => 0
  end.

(** The constraint [UNIQUE] on the column [hash]. *)
Definition unique_hashes (t : Table) : Prop := NoDup (map hash t).

(** The rows of the table that carry the hash [h]. *)
Definition rows_with (t : Table) (h : bytes) : list Row :=
  filter (fun r => blob_eqb (hash r) h) t.

(** How many of the chunks [cs] have the digest [h]. *)
Definition occurrences (h : bytes) (cs : list bytes) : Z :=
  Z.of_nat (length (filter (fun c => blob_eqb (Sha1.Sum c) h) cs)).

(** A [uint64] value. *)
Definition is_uint64 (x : Z) : Prop := 0 <= x < 2 ^ 64.

(** ** A concrete environment, to run the functions *)

Module Sample.
Import String.

(** Modelled from the spec: the rolling checksum of
    [camlistore.org/pkg/rollsum], which is imported and not part of this
    repository.  A checksum over a trailing window of bytes: a byte adds
    its value as it enters the window, and takes it back as it leaves;
    a boundary is hit when the low [n] bits of the checksum are all zero.
    The spec leaves the width of the window open; it is 64 bytes here. *)
Record Window : Type := mkWindow {
  recent : list Z;    (* the window, newest byte first *)
  checksum : Z        (* 32 bits *)
}.

Definition windowSize : nat := 64.

(** Modelled from the spec: [rollsum.New], an empty window. *)
Definition window_New : Window := mkWindow [] 0.

(** Modelled from the spec: [Roll], the update for one incoming byte. *)
Definition window_Roll (r : Window) (b : byte) : Window :=
  let add := Z_of_byte b in
  let drop := nth (windowSize - 1) (recent r) 0 in
  mkWindow (firstn windowSize (add :: recent r))
           ((checksum r + add - drop) mod 2 ^ 32).

(** Modelled from the spec: [OnSplitWithBits], the boundary test on the
    low [n] bits. *)
Definition window_OnSplitWithBits (r : Window) (n : Z) : bool :=
  Z.land (checksum r) (Z.shiftl 1 n - 1) =? 0.

#[global] Instance window_rollsum : RollSumLib := {
  RollSum := Window;
  rollsum_New := window_New;
  Roll := window_Roll;
  OnSplitWithBits := window_OnSplitWithBits
}.

Definition cannot_open : error := "vcdiff: cannot open dictraw"%string.

(** The child process fails when there is no dictionary file to read,
    and otherwise hands back some delta (here the content itself). *)
Definition run_vcdiff (dictionary : option bytes) (content : bytes)
  : bytes + error :=
  match dictionary with
  | None => inr cannot_open
  | Some _ => inl content
  end.

(** Every call into the database and the file system succeeds. *)
Definition env : Env :=
  mkEnv run_vcdiff None None (fun _ => None) None None None None None.

Definition empty_world : World := mkWorld [] [] 0 0 None [].

(** The process right after a restart: the table holds one chunk seen
    twice, and [d.sdchDictChunks] is nil again. *)
Definition restarted_world : World :=
  mkWorld [mkRow [x20] (Sha1.Sum [x20]) 2] [] 0 0 None [].

(** The state reached from [empty_world] by ingesting [20] twice: the
    chunk has been seen twice and was adopted at the second call. *)
Definition adopted_world : World :=
  mkWorld [mkRow [x20] (Sha1.Sum [x20]) 2] [Sha1.Sum [x20]] 0 2 None [].

(** The state reached from [empty_world] by ingesting [20 07 19 03 40]
    twice: the chunks [20] and [07 19] have been seen twice and were
    adopted at the second call. *)
Definition twice_world : World :=
  mkWorld [mkRow [x20] (Sha1.Sum [x20]) 2;
           mkRow [x07; x19] (Sha1.Sum [x07; x19]) 2]
          [Sha1.Sum [x20]; Sha1.Sum [x07; x19]] 0 10 None [].

(** The state reached from [empty_world] by ingesting [20] three times
    and then [40] twice: the active set is the chunk [20], and the chunk
    [40] has just become popular. *)
Definition grown_world : World :=
  mkWorld [mkRow [x20] (Sha1.Sum [x20]) 3; mkRow [x40] (Sha1.Sum [x40]) 2]
          [Sha1.Sum [x20]] 0 5 (Some [x20]) [].

End Sample.

(** ** The rest of the package *)

(** *** [New] *)

(** Outcomes of the three calls of [New]: [sql.Open], [db.Ping] and the
    [db.Exec] of the [CREATE TABLE] statement. *)
Record OpenEnv : Type := mkOpenEnv {
  sql_Open : option error;
  db_Ping : option error;
  db_Exec_create : option error
}.

(** [New] in a process that finds the table [chunks] holding the rows
    [table] ([None] when the table does not exist yet) and the dictionary
    file as [file].  [CREATE TABLE IF NOT EXISTS] keeps an existing table
    and makes an empty one otherwise; the [Dict] returned has [db] set and
    every other field at its zero value. *)
Definition New (oenv : OpenEnv) (table : option Table) (file : option bytes)
  : World + error :=
  match sql_Open oenv with
  | Some err => inr err
  | None =>
      match db_Ping oenv with
      | Some err => inr err
      | None =>
          match db_Exec_create oenv with
          | Some err => inr err
          | None =>
              inl (mkWorld (match table with Some t => t | None => [] end)
                     [] 0 0 file [])
          end
      end
  end.

(** *** [Stats] *)

Module Format.
Import String.

(** The two constant pieces of the format "matched %d out of %d". *)
Definition matched : string := "matched ".

Definition out_of : string := " out of ".

End Format.

(** The verb [%d] on a [uint64]: decimal digits, no sign, no padding. *)
Definition decimal (x : Z) : String.string :=
  DecimalString.NilZero.string_of_uint (N.to_uint (Z.to_N x)).

(** [fmt.Sprintf("matched %d out of %d", a, b)]. *)
Definition Sprintf_matched (a b : Z) : String.string :=
  String.append Format.matched
    (String.append (decimal a) (String.append Format.out_of (decimal b))).

Definition Stats (w : World) : String.string :=
  Sprintf_matched (totalBytesDup w) (totalBytesIn w).

(** *** [sliceslice] *)

Definition sliceslice_Len (ss : list bytes) : Z := Z.of_nat (length ss).

(** [ss[i]] for an [int] index; [None] is the run-time panic. *)
Definition index {A : Type} (ss : list A) (i : Z) : option A :=
  if i <? 0 then None else nth_error ss (Z.to_nat i).

(** [ss[i] = x] for an index in range. *)
Fixpoint assign {A : Type} (ss : list A) (i : nat) (x : A) : list A :=
  match ss, i with
  | [], _ => []
  | _ :: ss', O => x :: ss'
  | y :: ss', S i' => y :: assign ss' i' x
  end.

(** [ss[i], ss[j] = ss[j], ss[i]]: both operands are read, then [ss[i]]
    and [ss[j]] are written in that order. *)
Definition sliceslice_Swap (ss : list bytes) (i j : Z) : option (list bytes) :=
  match index ss i, index ss j with
  | Some a, Some b => Some (assign (assign ss (Z.to_nat i) b) (Z.to_nat j) a)
  | _, _ => None
  end.

(** Equality of byte strings is decidable. *)
Definition bytes_eq_dec : forall a b : bytes, {a = b} + {a <> b} :=
  list_eq_dec byte_eq_dec.

(** *** Sequences of calls *)

(** [parse] called on each content in turn. *)
Definition ingest_all {rollsum : RollSumLib} (env : Env)
    (contents : list bytes) (w : World) : World :=
  fold_left (fun w content => fst (parse env w content)) contents w.

(** What the chunk table keeps true of every row: the content is not
    empty, the hash is its digest, and the count is at least 1. *)
Definition chunk_row_ok (r : Row) : Prop :=
  content r <> [] /\ hash r = Sha1.Sum (content r) /\ 1 <= count r.

Definition table_ok (t : Table) : Prop :=
  unique_hashes t /\ Forall chunk_row_ok t.

(** Every hash of the active set is one the query for popular chunks
    returns. *)
Definition active_is_popular (w : World) : Prop :=
  unique_hashes (chunks w) /\
  incl (sdchDictChunks w) (map fst (popularChunks (chunks w))).

(** The row of a chunk seen [k] times. *)
Definition row_of (k : Z) (chunk : bytes) : Row :=
  mkRow chunk (Sha1.Sum chunk) k.

(** Environments in which one call fails. *)
Module Faults.
Import String.

Definition disk_full : error := "disk full"%string.

Definition busy : error := "database is locked"%string.

(** [tx.Commit] fails. *)
Definition commit_fails : Env :=
  mkEnv Sample.run_vcdiff None None (fun _ => None) None (Some busy)
    None None None.

(** [stmt.Close] fails. *)
Definition close_fails : Env :=
  mkEnv Sample.run_vcdiff None None (fun _ => None) (Some busy) None
    None None None.

(** The second [stmt.Exec] of a transaction fails. *)
Definition second_exec_fails : Env :=
  mkEnv Sample.run_vcdiff None None
    (fun n => if (n =? 1)%nat then Some disk_full else None) None None
    None None None.

(** [db.Query] fails. *)
Definition query_fails : Env :=
  mkEnv Sample.run_vcdiff None None (fun _ => None) None None
    (Some busy) None None.

(** [ioutil.WriteFile] fails and leaves the file empty. *)
Definition write_fails : Env :=
  mkEnv Sample.run_vcdiff None None (fun _ => None) None None
    None None (Some (Some [], disk_full)).

(** Every call of [New] succeeds. *)
Definition open_ok : OpenEnv := mkOpenEnv None None None.

End Faults.

(** * Properties *)

(** ** [sha1.Sum] on the test vectors of the standard *)

Example sha1_empty :
  map Z_of_byte (Sha1.Sum []) =
  [0xda; 0x39; 0xa3; 0xee; 0x5e; 0x6b; 0x4b; 0x0d; 0x32; 0x55;
   0xbf; 0xef; 0x95; 0x60; 0x18; 0x90; 0xaf; 0xd8; 0x07; 0x09].
Proof. vm_compute. reflexivity. Qed.

Example sha1_abc :
  map Z_of_byte (Sha1.Sum [x61; x62; x63]) =
  [0xa9; 0x99; 0x3e; 0x36; 0x47; 0x06; 0x81; 0x6a; 0xba; 0x3e;
   0x25; 0x71; 0x78; 0x50; 0xc2; 0x6c; 0x9c; 0xd0; 0xd8; 0x9d].
Proof. vm_compute. reflexivity. Qed.

(** A message of 56 bytes, which takes two blocks. *)
Example sha1_two_blocks :
  map Z_of_byte (Sha1.Sum (repeat x61 56)) =
  [0xc2; 0xdb; 0x33; 0x0f; 0x60; 0x83; 0x85; 0x4c; 0x99; 0xd4;
   0xb5; 0xbf; 0xb6; 0xe8; 0xf2; 0x9f; 0x20; 0x1b; 0xe6; 0x99].
Proof. vm_compute. reflexivity. Qed.

(** ** [bytes.Compare] is a total order on byte strings *)

Lemma byte_to_N_inj (x y : byte) : Byte.to_N x = Byte.to_N y -> x = y.
Proof.
  intros E.
  assert (S : Some x = Some y)
    by (rewrite <- (Byte.of_to_N x), <- (Byte.of_to_N y), E; reflexivity).
  now inversion S.
Qed.

Lemma bytes_Compare_range (a b : bytes) :
  bytes_Compare a b = -1 \/ bytes_Compare a b = 0 \/ bytes_Compare a b = 1.
Proof.
  revert b; induction a as [|x a IH]; intros [|y b]; simpl; auto.
  destruct (N.compare _ _); auto.
Qed.

Lemma bytes_Compare_refl (a : bytes) : bytes_Compare a a = 0.
Proof.
  induction a as [|x a IH]; simpl; [reflexivity|].
  now rewrite N.compare_refl.
Qed.

Lemma bytes_Compare_eq (a b : bytes) : bytes_Compare a b = 0 -> a = b.
Proof.
  revert b; induction a as [|x a IH]; intros [|y b]; simpl; try easy.
  destruct (N.compare_spec (Byte.to_N x) (Byte.to_N y)) as [E| |]; try easy.
  intros H; f_equal; [now apply byte_to_N_inj | now apply IH].
Qed.

Lemma bytes_Compare_eq_iff (a b : bytes) : bytes_Compare a b = 0 <-> a = b.
Proof.
  split; [apply bytes_Compare_eq | intros ->; apply bytes_Compare_refl].
Qed.

Lemma bytes_Compare_antisym (a b : bytes) :
  bytes_Compare b a = - bytes_Compare a b.
Proof.
  revert b; induction a as [|x a IH]; intros [|y b]; simpl; try reflexivity.
  rewrite (N.compare_antisym (Byte.to_N x) (Byte.to_N y)).
  destruct (N.compare (Byte.to_N x) (Byte.to_N y)); simpl; auto.
Qed.

Lemma bytes_Compare_trans (a b c : bytes) :
  bytes_Compare a b <= 0 -> bytes_Compare b c <= 0 -> bytes_Compare a c <= 0.
Proof.
  revert b c; induction a as [|x a IH]; intros [|y b] [|z c]; simpl;
    try lia.
  destruct (N.compare_spec (Byte.to_N x) (Byte.to_N y)) as [Exy|Lxy|Gxy];
    destruct (N.compare_spec (Byte.to_N y) (Byte.to_N z)) as [Eyz|Lyz|Gyz];
    destruct (N.compare_spec (Byte.to_N x) (Byte.to_N z)) as [Exz|Lxz|Gxz];
    try lia.
  apply IH.
Qed.

(** ** [sort.Sort] *)

Section SortFacts.
Context {A : Type} (less : A -> A -> bool).

Hypothesis less_asym : forall a b, less a b = true -> less b a = false.
Hypothesis ordered_trans :
  forall a b c, ordered less a b -> ordered less b c -> ordered less a c.

Lemma insert_sorted_perm (x : A) (l : list A) :
  Permutation (x :: l) (insert_sorted less x l).
Proof.
  induction l as [|y l IH]; simpl; [reflexivity|].
  destruct (less x y); [reflexivity|].
  rewrite perm_swap. now constructor.
Qed.

Lemma sort_Sort_perm (l : list A) : Permutation l (sort_Sort less l).
Proof.
  induction l as [|x l IH]; simpl; [constructor|].
  rewrite <- insert_sorted_perm. now constructor.
Qed.

Lemma insert_sorted_sorted (x : A) (l : list A) :
  StronglySorted (ordered less) l ->
  StronglySorted (ordered less) (insert_sorted less x l).
Proof.
  induction l as [|y l IH]; intros S; simpl.
  - repeat constructor.
  - inversion S as [|? ? Sl Fy]; subst.
    destruct (less x y) eqn:Lxy.
    + constructor; [assumption|].
      assert (Oxy : ordered less x y) by (apply less_asym, Lxy).
      constructor; [exact Oxy|].
      eapply Forall_impl; [|exact Fy].
      intros z Oyz. exact (ordered_trans _ _ _ Oxy Oyz).
    + constructor; [now apply IH|].
      eapply Permutation_Forall; [apply insert_sorted_perm|].
      constructor; assumption.
Qed.

Lemma sort_Sort_sorted (l : list A) :
  StronglySorted (ordered less) (sort_Sort less l).
Proof.
  induction l as [|x l IH]; simpl; [constructor|].
  now apply insert_sorted_sorted.
Qed.

(** When the order tells any two different members apart, sorted data
    has one possible arrangement. *)
Lemma sorted_permutation_unique (l1 l2 : list A) :
  (forall a b, In a l1 -> In b l1 ->
               ordered less a b -> ordered less b a -> a = b) ->
  StronglySorted (ordered less) l1 -> StronglySorted (ordered less) l2 ->
  Permutation l1 l2 -> l1 = l2.
Proof.
  revert l2.
  induction l1 as [|a l1 IH]; intros l2 antisym S1 S2 P.
  - now apply Permutation_nil in P.
  - destruct l2 as [|b l2];
      [apply Permutation_sym, Permutation_nil in P; discriminate|].
    inversion S1 as [|? ? S1' F1]; inversion S2 as [|? ? S2' F2]; subst.
    assert (Ia : In a (b :: l2))
      by (eapply Permutation_in; [exact P | now left]).
    assert (Ib : In b (a :: l1))
      by (eapply Permutation_in; [apply Permutation_sym, P | now left]).
    assert (E : a = b).
    { destruct Ia as [->|Ia]; [reflexivity|].
      destruct Ib as [->|Ib']; [reflexivity|].
      rewrite Forall_forall in F1, F2.
      apply antisym; [now left | now right | apply F1, Ib' | apply F2, Ia]. }
    subst b. f_equal. apply IH; try assumption.
    + intros x y Ix Iy. apply antisym; now right.
    + now apply Permutation_cons_inv in P.
Qed.

End SortFacts.

Lemma sliceslice_asym (a b : bytes) :
  sliceslice_Less a b = true -> sliceslice_Less b a = false.
Proof.
  unfold sliceslice_Less. rewrite (bytes_Compare_antisym a b).
  intros H%Z.ltb_lt. apply Z.ltb_ge. lia.
Qed.

Lemma sliceslice_ordered (a b : bytes) :
  ordered sliceslice_Less a b <-> bytes_Compare a b <= 0.
Proof.
  unfold ordered, sliceslice_Less. rewrite (bytes_Compare_antisym a b).
  rewrite Z.ltb_ge. lia.
Qed.

Lemma sliceslice_ordered_trans (a b c : bytes) :
  ordered sliceslice_Less a b -> ordered sliceslice_Less b c ->
  ordered sliceslice_Less a c.
Proof.
  rewrite !sliceslice_ordered. apply bytes_Compare_trans.
Qed.

Lemma sliceslice_ordered_antisym (a b : bytes) :
  ordered sliceslice_Less a b -> ordered sliceslice_Less b a -> a = b.
Proof.
  rewrite !sliceslice_ordered. rewrite (bytes_Compare_antisym a b).
  intros H1 H2. apply bytes_Compare_eq. lia.
Qed.

(** Whatever algorithm [sort.Sort] runs, it leaves [all] as the model
    does. *)
Lemma sliceslice_sort_unique (l sorted : list bytes) :
  Permutation l sorted -> StronglySorted (ordered sliceslice_Less) sorted ->
  sorted = sort_Sort sliceslice_Less l.
Proof.
  intros P S.
  apply (sorted_permutation_unique sliceslice_Less).
  - intros a b _ _. apply sliceslice_ordered_antisym.
  - exact S.
  - apply sort_Sort_sorted;
      [apply sliceslice_asym | apply sliceslice_ordered_trans].
  - rewrite <- P. apply sort_Sort_perm.
Qed.

Lemma StronglySorted_weaken {A : Type} (R R' : A -> A -> Prop)
    (l : list A) :
  (forall a b, R a b -> R' a b) -> StronglySorted R l -> StronglySorted R' l.
Proof.
  intros W S. induction S as [|a l S IH F]; constructor; [exact IH|].
  eapply Forall_impl; [|exact F]. intros b. apply W.
Qed.

(** ** The query for popular chunks *)

Lemma order_before_asym (r1 r2 : Row) :
  order_before r1 r2 = true -> order_before r2 r1 = false.
Proof.
  unfold order_before. rewrite (bytes_Compare_antisym (hash r1) (hash r2)).
  intros H.
  apply orb_true_iff in H
    as [H%Z.ltb_lt | [E%Z.eqb_eq H%Z.ltb_lt]%andb_true_iff];
    apply orb_false_iff; split; try (apply Z.ltb_ge; lia);
    apply andb_false_iff.
  - left. apply Z.eqb_neq. lia.
  - right. apply Z.ltb_ge. lia.
Qed.

(** [ordered order_before] spelt out: counts ascend, and for equal
    counts hashes descend. *)
Lemma order_before_ordered (r1 r2 : Row) :
  ordered order_before r1 r2 <->
  count r1 < count r2 \/
  (count r1 = count r2 /\ bytes_Compare (hash r2) (hash r1) <= 0).
Proof.
  unfold ordered, order_before.
  rewrite orb_false_iff, andb_false_iff, Z.ltb_ge, Z.eqb_neq, Z.ltb_ge.
  lia.
Qed.

Lemma order_before_ordered_trans (r1 r2 r3 : Row) :
  ordered order_before r1 r2 -> ordered order_before r2 r3 ->
  ordered order_before r1 r3.
Proof.
  rewrite !order_before_ordered.
  intros [L12 | [E12 H12]] [L23 | [E23 H23]]; try lia.
  right. split; [lia|].
  exact (bytes_Compare_trans _ _ _ H23 H12).
Qed.

Lemma popular_rows_perm (t : Table) :
  Permutation (popular_rows t) (filter (fun r => 1 <? count r) t).
Proof. symmetry. apply sort_Sort_perm. Qed.

Lemma popular_rows_sorted (t : Table) :
  StronglySorted (ordered order_before) (popular_rows t).
Proof.
  apply sort_Sort_sorted;
    [apply order_before_asym | apply order_before_ordered_trans].
Qed.

(** ** [needToUpdate]: the combined slice and the scan *)

Lemma go_copy_nil_dst {A : Type} (src : list A) : go_copy [] src = [].
Proof. unfold go_copy. simpl. now rewrite skipn_nil. Qed.

Lemma skipn_repeat_add {A : Type} (x : A) (n m : nat) :
  skipn n (repeat x (n + m)) = repeat x m.
Proof. induction n as [|n IH]; simpl; [reflexivity | exact IH]. Qed.

Lemma go_copy_at_end {A : Type} (dst src : list A) :
  go_copy_at dst (length dst) src = dst.
Proof.
  unfold go_copy_at.
  now rewrite firstn_all, skipn_all, go_copy_nil_dst, app_nil_r.
Qed.

(** What [all] holds when it is handed to [sort.Sort]: the active hashes,
    then one nil entry for each candidate. *)
Lemma combined_eq (active hashes : list bytes) :
  combined active hashes = active ++ repeat [] (length hashes).
Proof.
  unfold combined. rewrite go_copy_at_end. unfold go_copy.
  rewrite repeat_length, skipn_repeat_add.
  rewrite firstn_all2 by lia. reflexivity.
Qed.

Lemma combined_length (active hashes : list bytes) :
  length (combined active hashes) = (length active + length hashes)%nat.
Proof. now rewrite combined_eq, length_app, repeat_length. Qed.

(** Once [isDup] is set the counter does not move again. *)
Lemma count_uniq_isDup (last : bytes) (uniq : Z) (rest : list bytes) :
  count_uniq last uniq true rest = uniq.
Proof.
  revert last; induction rest as [|x rest IH]; intros last; simpl;
    [reflexivity|].
  destruct (bytes_Compare last x =? 0); apply IH.
Qed.

Lemma uniq_of_duplicate_head (x : bytes) (rest : list bytes) :
  uniq_of (x :: x :: rest) = 0.
Proof.
  simpl. rewrite bytes_Compare_refl. simpl. apply count_uniq_isDup.
Qed.

(** The counter stays within the number of elements scanned. *)
Lemma count_uniq_bounds (last : bytes) (uniq : Z) (isDup : bool)
    (rest : list bytes) :
  uniq <= count_uniq last uniq isDup rest <= uniq + Z.of_nat (length rest).
Proof.
  revert last uniq isDup; induction rest as [|x rest IH];
    intros last uniq isDup; simpl length; simpl count_uniq; [lia|].
  destruct (bytes_Compare last x =? 0).
  - specialize (IH last uniq true). lia.
  - destruct isDup.
    + specialize (IH x uniq true). lia.
    + specialize (IH x (uniq + 1) false). lia.
Qed.

(** The loop over the rows gathers the contents end to end and the
    hashes in order. *)
Lemma scan_rows_eq (rows : list (bytes * bytes)) :
  scan_rows rows = (concat (map snd rows), map fst rows).
Proof.
  unfold scan_rows.
  enough (G : forall (acc : bytes * list bytes),
             fold_left
               (fun (acc : bytes * list bytes) (row : bytes * bytes) =>
                  let '(contents, hashes) := acc in
                  let '(hash, content) := row in
                  (contents ++ content, hashes ++ [hash])) rows acc
             = (fst acc ++ concat (map snd rows), snd acc ++ map fst rows))
    by (rewrite G; reflexivity).
  induction rows as [|[h c] rows IH]; intros [cs hs]; simpl.
  - now rewrite !app_nil_r.
  - rewrite IH. simpl. now rewrite <- !app_assoc.
Qed.

(** The sample states are reached by ingestion from the empty state. *)
Lemma adopted_world_reached :
  ingest_times Sample.env 2 [x20] Sample.empty_world = Sample.adopted_world.
Proof. vm_compute. reflexivity. Qed.

Lemma twice_world_reached :
  ingest_times Sample.env 2 [x20; x07; x19; x03; x40] Sample.empty_world =
  Sample.twice_world.
Proof. vm_compute. reflexivity. Qed.

Lemma grown_world_reached :
  ingest_times Sample.env 2 [x40]
    (ingest_times Sample.env 3 [x20] Sample.empty_world) =
  Sample.grown_world.
Proof. vm_compute. reflexivity. Qed.

(** C1. The slice that is sorted and scanned holds the active hashes and
    one nil entry per candidate, not the candidates: the second [copy]
    starts at [len(all)] and writes nothing.  In the state [grown_world]
    the active set is [sha1(20)] and the query returns [sha1(40),
    sha1(20)]; the sorted slice is [nil, nil, sha1(20)], where the sorted
    concatenation of the two is [sha1(40), sha1(20), sha1(20)]. *)
Theorem combined_holds_nil_for_candidates :
  (forall active hashes : list bytes,
     combined active hashes = active ++ repeat [] (length hashes)) /\
  (let active := sdchDictChunks Sample.grown_world in
   let hashes := map fst (popularChunks (chunks Sample.grown_world)) in
   active = [Sha1.Sum [x20]] /\
   hashes = [Sha1.Sum [x40]; Sha1.Sum [x20]] /\
   sort_Sort sliceslice_Less (combined active hashes) =
     [[]; []; Sha1.Sum [x20]] /\
   sort_Sort sliceslice_Less (active ++ hashes) =
     [Sha1.Sum [x40]; Sha1.Sum [x20]; Sha1.Sum [x20]]).
Proof.
  split; [exact combined_eq|].
  vm_compute. repeat split; reflexivity.
Qed.

(** C2. A duplicate run switches the count off for the rest of the scan:
    [isDup] is never reset, so the values that follow the run are not
    counted although each differs from its predecessor.  In the state
    [twice_world] the sorted slice is [nil, nil, sha1(07 19), sha1(20)]:
    the two hashes follow a run of two nil entries and [uniq] ends at 0;
    without the second nil entry the same two hashes are counted and
    [uniq] ends at 2. *)
Theorem count_uniq_off_after_first_run :
  (forall (last : bytes) (uniq : Z) (rest : list bytes),
     count_uniq last uniq true rest = uniq) /\
  (forall (x : bytes) (rest : list bytes), uniq_of (x :: x :: rest) = 0) /\
  (let a := Sha1.Sum [x20] in
   let b := Sha1.Sum [x07; x19] in
   sort_Sort sliceslice_Less
     (combined (sdchDictChunks Sample.twice_world)
        (map fst (popularChunks (chunks Sample.twice_world)))) =
     [[]; []; b; a] /\
   uniq_of [[]; []; b; a] = 0 /\
   uniq_of [[]; b; a] = 2).
Proof.
  split; [exact count_uniq_isDup|].
  split; [exact uniq_of_duplicate_head|].
  vm_compute. repeat split; reflexivity.
Qed.

(** ** The upsert statement *)

Lemma blob_eqb_eq (a b : bytes) : blob_eqb a b = true <-> a = b.
Proof. unfold blob_eqb. rewrite Z.eqb_eq. apply bytes_Compare_eq_iff. Qed.

Lemma blob_eqb_refl (a : bytes) : blob_eqb a a = true.
Proof. now apply blob_eqb_eq. Qed.

Lemma blob_eqb_neq (a b : bytes) : blob_eqb a b = false <-> a <> b.
Proof.
  rewrite <- blob_eqb_eq. destruct (blob_eqb a b); split; congruence.
Qed.

Lemma select_count_app (t1 t2 : Table) (h : bytes) :
  select_count (t1 ++ t2) h =
  match select_count t1 h with
  | Some c => Some c
  | None => select_count t2 h
  end.
Proof.
  induction t1 as [|r t1 IH]; simpl; [reflexivity|].
  destruct (blob_eqb (hash r) h); [reflexivity | exact IH].
Qed.

Lemma select_count_without (t : Table) (h h' : bytes) :
  select_count (filter (fun r => negb (blob_eqb (hash r) h)) t) h' =
  if blob_eqb h h' then None else select_count t h'.
Proof.
  induction t as [|r t IH]; simpl; [now destruct (blob_eqb h h')|].
  destruct (blob_eqb (hash r) h) eqn:Eh; simpl.
  - apply blob_eqb_eq in Eh. rewrite Eh, IH.
    now destruct (blob_eqb h h').
  - rewrite IH. destruct (blob_eqb h h') eqn:Ehh'.
    + apply blob_eqb_eq in Ehh'. subst h'. now rewrite Eh.
    + reflexivity.
Qed.

(** The count stored by one upsert, for the hash written and for any
    other. *)
Lemma select_count_sqlUpSert (t : Table) (c h h' : bytes) :
  select_count (sqlUpSert t c h h) h' =
  if blob_eqb h h'
  then Some (match select_count t h with Some k => 1 + k | None => 1 end)
  else select_count t h'.
Proof.
  unfold sqlUpSert. rewrite select_count_app, select_count_without. simpl.
  destruct (blob_eqb h h'); [reflexivity|].
  now destruct (select_count t h').
Qed.

Lemma rows_with_sqlUpSert (t : Table) (c h : bytes) :
  rows_with (sqlUpSert t c h h) h =
  [mkRow c h (match select_count t h with Some k => 1 + k | None => 1 end)].
Proof.
  unfold rows_with, sqlUpSert. rewrite filter_app. simpl.
  rewrite blob_eqb_refl.
  replace (filter _ (filter _ t)) with (@nil Row); [reflexivity|].
  induction t as [|r t IH]; simpl; [reflexivity|].
  destruct (blob_eqb (hash r) h) eqn:E; simpl; [exact IH|].
  now rewrite E.
Qed.

Lemma count_of_upsert (t : Table) (chunk h : bytes) :
  count_of (upsert t chunk) h =
  count_of t h + (if blob_eqb (Sha1.Sum chunk) h then 1 else 0).
Proof.
  unfold count_of, upsert. rewrite select_count_sqlUpSert.
  destruct (blob_eqb (Sha1.Sum chunk) h) eqn:E.
  - apply blob_eqb_eq in E. subst h.
    destruct (select_count t (Sha1.Sum chunk)); lia.
  - lia.
Qed.

Lemma count_of_fold_upsert (cs : list bytes) (t : Table) (h : bytes) :
  count_of (fold_left upsert cs t) h = count_of t h + occurrences h cs.
Proof.
  unfold occurrences.
  revert t; induction cs as [|c cs IH]; intros t; simpl; [lia|].
  rewrite IH, count_of_upsert.
  destruct (blob_eqb (Sha1.Sum c) h); simpl length; lia.
Qed.

(** ** The constraint on [hash] *)

(** Deleting rows keeps the constraint. *)
Lemma unique_hashes_filter (keep : Row -> bool) (t : Table) :
  unique_hashes t -> unique_hashes (filter keep t).
Proof.
  unfold unique_hashes.
  induction t as [|r t IH]; simpl; intros U; [constructor|].
  apply NoDup_cons_iff in U as [Fresh U].
  destruct (keep r); simpl; [|now apply IH].
  apply NoDup_cons_iff. split; [|now apply IH].
  rewrite in_map_iff. intros (r' & E & I).
  apply filter_In in I as [I _].
  apply Fresh. rewrite <- E. now apply in_map.
Qed.

Lemma NoDup_map_eq {A B : Type} (f : A -> B) (l : list A) (x y : A) :
  NoDup (map f l) -> In x l -> In y l -> f x = f y -> x = y.
Proof.
  induction l as [|z l IH]; simpl; intros N Ix Iy E; [easy|].
  inversion N as [|? ? NI N']; subst.
  destruct Ix as [->|Ix], Iy as [->|Iy]; try reflexivity.
  - elim NI. rewrite E. now apply in_map.
  - elim NI. rewrite <- E. now apply in_map.
  - now apply IH.
Qed.

Lemma sqlUpSert_unique_hashes (t : Table) (c h : bytes) :
  unique_hashes t -> unique_hashes (sqlUpSert t c h h).
Proof.
  unfold unique_hashes, sqlUpSert. intros N.
  rewrite map_app. simpl.
  apply NoDup_app;
    [now apply unique_hashes_filter | repeat constructor; easy |].
  intros x I [<-|[]].
  apply in_map_iff in I as (r & E & I).
  apply filter_In in I as [_ I]. rewrite E, blob_eqb_refl in I. discriminate.
Qed.

Lemma fold_upsert_unique_hashes (cs : list bytes) (t : Table) :
  unique_hashes t -> unique_hashes (fold_left upsert cs t).
Proof.
  revert t; induction cs as [|c cs IH]; intros t U; [exact U|].
  simpl. apply IH. now apply sqlUpSert_unique_hashes.
Qed.

(** With one row per hash the order of the query settles the place of
    every row: a result set in that order is the one of the model. *)
Lemma popular_rows_determined (t : Table) (rows : list Row) :
  unique_hashes t ->
  Permutation rows (filter (fun r => 1 <? count r) t) ->
  StronglySorted (ordered order_before) rows ->
  rows = popular_rows t.
Proof.
  intros U P S.
  apply (sorted_permutation_unique order_before).
  - intros r1 r2 I1 I2 O12 O21.
    apply (Permutation_in _ P), filter_In in I1 as [I1 _].
    apply (Permutation_in _ P), filter_In in I2 as [I2 _].
    apply (NoDup_map_eq hash t r1 r2 U I1 I2).
    apply order_before_ordered in O12, O21.
    apply bytes_Compare_eq.
    rewrite (bytes_Compare_antisym (hash r1) (hash r2)) in O12. lia.
  - exact S.
  - apply popular_rows_sorted.
  - rewrite P. symmetry. apply popular_rows_perm.
Qed.

(** C6. The query returns exactly the rows of the table whose count is
    greater than 1, each with its hash and content, and the result is
    ordered by count ascending and, for equal counts, by hash descending;
    this holds for every table.  Under the constraint of one row per hash
    no other arrangement of these rows is in that order. *)
Theorem popularChunks_filtered_and_ordered (t : Table) :
  popularChunks t = map (fun r => (hash r, content r)) (popular_rows t) /\
  Permutation (popular_rows t) (filter (fun r => 1 <? count r) t) /\
  (forall r, In r (popular_rows t) <-> In r t /\ 1 < count r) /\
  StronglySorted
    (fun r1 r2 =>
       count r1 < count r2 \/
       (count r1 = count r2 /\ bytes_Compare (hash r2) (hash r1) <= 0))
    (popular_rows t) /\
  (unique_hashes t ->
   forall rows : list Row,
     Permutation rows (filter (fun r => 1 <? count r) t) ->
     StronglySorted (ordered order_before) rows ->
     rows = popular_rows t).
Proof.
  split; [reflexivity|].
  split; [apply popular_rows_perm|].
  split.
  - intros r. split.
    + intros I. apply (Permutation_in _ (popular_rows_perm t)) in I.
      apply filter_In in I as [I C]. split; [exact I | now apply Z.ltb_lt].
    + intros [I C].
      apply (Permutation_in _ (Permutation_sym (popular_rows_perm t))).
      apply filter_In. split; [exact I | now apply Z.ltb_lt].
  - split.
    + eapply StronglySorted_weaken; [|apply popular_rows_sorted].
      intros r1 r2. apply order_before_ordered.
    + intros U rows. now apply popular_rows_determined.
Qed.

(** Three rows seen twice and one seen three times, stored in no
    particular order: the rows of equal count come out by hash
    descending, before the row of higher count. *)
Example popularChunks_equal_counts :
  popularChunks
    [mkRow [x03] [x33] 3; mkRow [x01] [x11] 2; mkRow [x09] [x99] 1;
     mkRow [x02] [x22; x00] 2; mkRow [x04] [x22] 2] =
  [([x22; x00], [x02]); ([x22], [x04]); ([x11], [x01]); ([x33], [x03])].
Proof. reflexivity. Qed.



(** ** [makeDict] and [needToUpdate] leave the table alone *)

Section StateFacts.
Context {rollsum : RollSumLib}.
Variable env : Env.

Lemma needToUpdate_chunks (w : World) :
  chunks (fst (needToUpdate env w)) = chunks w.
Proof.
  unfold needToUpdate.
  destruct (db_Query env); [reflexivity|].
  destruct (scan_rows _) as [contents hashes].
  destruct (rows_Err env); [reflexivity|].
  now destruct (length (sdchDictChunks w) =? 0)%nat.
Qed.

Lemma needToUpdate_counters (w : World) :
  totalBytesIn (fst (needToUpdate env w)) = totalBytesIn w /\
  totalBytesDup (fst (needToUpdate env w)) = totalBytesDup w /\
  dictraw (fst (needToUpdate env w)) = dictraw w /\
  goroutines (fst (needToUpdate env w)) = goroutines w.
Proof.
  unfold needToUpdate.
  destruct (db_Query env); [now repeat split|].
  destruct (scan_rows _) as [contents hashes].
  destruct (rows_Err env); [now repeat split|].
  now destruct (length (sdchDictChunks w) =? 0)%nat.
Qed.

Lemma makeDict_chunks (w : World) :
  chunks (fst (makeDict env w)) = chunks w.
Proof.
  unfold makeDict.
  pose proof (needToUpdate_chunks w) as N.
  destruct (needToUpdate env w) as [w' [[contents hashes] change]].
  simpl in N. destruct change; [|exact N].
  now destruct (ioutil_WriteFile env) as [[remains err]|].
Qed.

Lemma makeDict_totalBytesIn (w : World) :
  totalBytesIn (fst (makeDict env w)) = totalBytesIn w.
Proof.
  unfold makeDict.
  pose proof (needToUpdate_counters w) as [N _].
  destruct (needToUpdate env w) as [w' [[contents hashes] change]].
  simpl in N. destruct change; [|exact N].
  now destruct (ioutil_WriteFile env) as [[remains err]|].
Qed.

(** ** The loop of [parse] *)

Lemma parse_loop_ok (q : bytes) (v : LoopVars) :
  (forall n, stmt_Exec env n = None) ->
  parse_loop env q v =
  (mkLoop (fold_left Roll q (rs v))
          (snd (split_from (rs v) (buf v) q))
          (fold_left upsert (fst (split_from (rs v) (buf v) q)) (tx v))
          (Nat.iter (length q) uint64_incr (bytesIn v))
          (execs v + length (fst (split_from (rs v) (buf v) q))),
   None).
Proof.
  intros OK. revert v; induction q as [|b q IH]; intros [r pending t n k].
  - simpl. now rewrite Nat.add_0_r.
  - cbn [parse_loop split_from rs buf tx bytesIn execs].
    destruct (OnSplitWithBits (Roll r b) 5).
    + rewrite OK, IH. cbn [rs buf tx bytesIn execs].
      destruct (split_from (Roll r b) [] q) as [cs rest].
      cbn [fst snd fold_left length]. unfold upsert at 2.
      rewrite <- Nat.iter_succ_r. cbn [fold_left length].
      do 2 f_equal. lia.
    + rewrite IH. cbn [rs buf tx bytesIn execs].
      rewrite <- Nat.iter_succ_r. reflexivity.
Qed.

(** With the database at hand, [parse] upserts the chunks of the
    content inside one transaction, counts the bytes, and calls
    [makeDict]. *)
Lemma parse_ok (w : World) (content : bytes) :
  db_writes_succeed env ->
  parse env w content =
  makeDict env
    (set_chunks
       (set_totalBytesDup
          (set_totalBytesIn w
             (Nat.iter (length content) uint64_incr (totalBytesIn w)))
          (uint64_add (totalBytesDup w) 0))
       (fold_left upsert (chunks_of content) (chunks w))).
Proof.
  intros (B & P & X & C & T). unfold parse.
  rewrite B, P, (parse_loop_ok _ _ X), C, T. reflexivity.
Qed.

Lemma parse_chunks (w : World) (content : bytes) :
  db_writes_succeed env ->
  chunks (fst (parse env w content)) =
  fold_left upsert (chunks_of content) (chunks w).
Proof.
  intros OK. now rewrite (parse_ok _ _ OK), makeDict_chunks.
Qed.

Lemma ingest_times_chunks (n : nat) (w : World) (content : bytes) :
  db_writes_succeed env ->
  chunks (ingest_times env n content w) =
  Nat.iter n (fold_left upsert (chunks_of content)) (chunks w).
Proof.
  intros OK. induction n as [|n IH]; [reflexivity|].
  unfold ingest_times in *. simpl. now rewrite (parse_chunks _ _ OK), IH.
Qed.

Lemma parse_unique_hashes (w : World) (content : bytes) :
  db_writes_succeed env ->
  unique_hashes (chunks w) ->
  unique_hashes (chunks (fst (parse env w content))).
Proof.
  intros OK U. rewrite (parse_chunks _ _ OK).
  now apply fold_upsert_unique_hashes.
Qed.

Lemma count_of_iter_upsert (n : nat) (cs : list bytes) (t : Table)
    (h : bytes) :
  count_of (Nat.iter n (fold_left upsert cs) t) h =
  count_of t h + Z.of_nat n * occurrences h cs.
Proof.
  induction n as [|n IH]; [simpl; lia|].
  rewrite Nat.iter_succ, count_of_fold_upsert, IH. lia.
Qed.

End StateFacts.

(** ** The chunks of a content *)

Section SplitFacts.
Context {rollsum : RollSumLib}.

(** The chunks and the bytes left over make up the input, and cutting
    the input just before the left-over bytes yields the same chunks. *)
Lemma split_from_spec (q : bytes) (r : RollSum) (pending : bytes) :
  let cs := fst (split_from r pending q) in
  let rest := snd (split_from r pending q) in
  pending ++ q = concat cs ++ rest /\
  (cs = [] -> rest = pending ++ q) /\
  (cs <> [] -> exists q1, q = q1 ++ rest /\ split_from r pending q1 = (cs, [])).
Proof.
  revert r pending; induction q as [|b q IH]; intros r pending.
  - simpl. rewrite app_nil_r. repeat split. intros C; now elim C.
  - cbn [split_from].
    destruct (OnSplitWithBits (Roll r b) 5) eqn:S.
    + specialize (IH (Roll r b) []).
      destruct (split_from (Roll r b) [] q) as [cs rest] eqn:E.
      cbn [fst snd] in *. destruct IH as (Cat & Nil & Cons).
      split; [|split].
      * simpl in Cat. simpl. rewrite <- app_assoc, <- Cat.
        now rewrite <- app_assoc.
      * discriminate.
      * intros _. destruct cs as [|c cs].
        -- exists [b]. rewrite (Nil eq_refl). split; [reflexivity|].
           cbn [split_from]. now rewrite S.
        -- destruct Cons as (q1 & Eq & Sq); [discriminate|].
           exists (b :: q1). split; [now rewrite Eq|].
           cbn [split_from]. now rewrite S, Sq.
    + specialize (IH (Roll r b) (pending ++ [b])).
      destruct (split_from (Roll r b) (pending ++ [b]) q) as [cs rest] eqn:E.
      cbn [fst snd] in *. destruct IH as (Cat & Nil & Cons).
      split; [|split].
      * now rewrite <- Cat, <- app_assoc.
      * intros C. now rewrite (Nil C), <- app_assoc.
      * intros C. destruct (Cons C) as (q1 & Eq & Sq).
        exists (b :: q1). split; [now rewrite Eq|].
        cbn [split_from]. now rewrite S.
Qed.

Lemma chunks_of_trailing_of (content : bytes) :
  content = concat (chunks_of content) ++ trailing_of content.
Proof. apply (split_from_spec content rollsum_New []). Qed.

Lemma chunks_of_nil : chunks_of [] = [].
Proof. reflexivity. Qed.

(** The chunks of a content are the chunks of its part that ends at the
    last boundary. *)
Lemma chunks_of_concat (content : bytes) :
  chunks_of (concat (chunks_of content)) = chunks_of content.
Proof.
  pose proof (split_from_spec content rollsum_New []) as (Cat & _ & Cons).
  fold (chunks_of content) in *. fold (trailing_of content) in *.
  destruct (chunks_of content) as [|c cs] eqn:E; [reflexivity|].
  destruct Cons as (q1 & Eq & Sq); [discriminate|].
  assert (Q : q1 = concat (c :: cs)).
  { apply (app_inv_tail (trailing_of content)). rewrite <- Eq. exact Cat. }
  rewrite <- Q. unfold chunks_of. now rewrite Sq.
Qed.

(** Bytes are left over exactly when the input does not end on a
    boundary. *)
Lemma split_from_rest (q : bytes) (r : RollSum) (pending : bytes) :
  q <> [] ->
  OnSplitWithBits (fold_left Roll q r) 5 = false ->
  snd (split_from r pending q) <> [].
Proof.
  revert r pending; induction q as [|b q IH]; intros r pending NE Off;
    [now elim NE|].
  cbn [split_from]. simpl in Off.
  destruct q as [|b' q].
  - simpl in Off. rewrite Off. simpl. now destruct pending.
  - destruct (OnSplitWithBits (Roll r b) 5).
    + specialize (IH (Roll r b) []).
      destruct (split_from (Roll r b) [] (b' :: q)) as [cs rest].
      apply IH; [discriminate | exact Off].
    + apply IH; [discriminate | exact Off].
Qed.

Lemma trailing_of_off_boundary (content : bytes) :
  content <> [] -> ends_on_boundary content = false ->
  trailing_of content <> [].
Proof. apply split_from_rest. Qed.

Lemma split_from_on_boundary (q : bytes) (r : RollSum) (pending : bytes) :
  q <> [] ->
  OnSplitWithBits (fold_left Roll q r) 5 = true ->
  snd (split_from r pending q) = [].
Proof.
  revert r pending; induction q as [|b q IH]; intros r pending NE On;
    [now elim NE|].
  cbn [split_from]. simpl in On.
  destruct q as [|b' q].
  - simpl in On. now rewrite On.
  - destruct (OnSplitWithBits (Roll r b) 5).
    + specialize (IH (Roll r b) []).
      destruct (split_from (Roll r b) [] (b' :: q)) as [cs rest].
      apply IH; [discriminate | exact On].
    + apply IH; [discriminate | exact On].
Qed.

Lemma trailing_of_on_boundary (content : bytes) :
  content <> [] -> ends_on_boundary content = true ->
  trailing_of content = [].
Proof. apply split_from_on_boundary. Qed.

End SplitFacts.

(** ** Chunking and the table *)

(** C3 (as the code has it). When the content does not end on a
    boundary, the bytes after the last boundary stay in [buf] and are
    dropped: the table receives one upsert per chunk closed by a boundary
    and nothing else, and it ends up as if the content had stopped at its
    last boundary. *)
Theorem parse_discards_trailing_bytes
    (rollsum : RollSumLib) (env : Env) (w : World) (content : bytes) :
  db_writes_succeed env ->
  content <> [] ->
  ends_on_boundary content = false ->
  trailing_of content <> [] /\
  content = concat (chunks_of content) ++ trailing_of content /\
  chunks (fst (parse env w content)) =
    fold_left upsert (chunks_of content) (chunks w) /\
  chunks (fst (parse env w content)) =
    chunks (fst (parse env w (concat (chunks_of content)))).
Proof.
  intros OK NE Off.
  split; [now apply trailing_of_off_boundary|].
  split; [apply chunks_of_trailing_of|].
  rewrite !(parse_chunks env _ _ OK), chunks_of_concat. split; reflexivity.
Qed.

Lemma sample_db_writes_succeed : db_writes_succeed Sample.env.
Proof. repeat split. Defined.

Lemma sample_db_query_succeeds : db_query_succeeds Sample.env.
Proof. split; reflexivity. Defined.

(** The content [20 01]: the chunk [20] is stored, the byte [01] is not. *)
Lemma parse_discards_trailing_bytes_witness :
  trailing_of [x20; x01] <> [] /\
  [x20; x01] = concat (chunks_of [x20; x01]) ++ trailing_of [x20; x01] /\
  chunks (fst (parse Sample.env Sample.empty_world [x20; x01])) =
    fold_left upsert (chunks_of [x20; x01]) (chunks Sample.empty_world) /\
  chunks (fst (parse Sample.env Sample.empty_world [x20; x01])) =
    chunks (fst (parse Sample.env Sample.empty_world
                   (concat (chunks_of [x20; x01])))).
Proof.
  apply (parse_discards_trailing_bytes Sample.window_rollsum Sample.env
           Sample.empty_world [x20; x01]).
  - exact sample_db_writes_succeed.
  - discriminate.
  - reflexivity.
Defined.

(** C3 (as the spec has it) fails on the one-byte content [01]: the
    byte is no boundary, it is the whole trailing part, and after [parse]
    the table has no row at all, so none for its digest. *)
Lemma parse_trailing_byte_not_stored :
  ends_on_boundary [x01] = false /\
  trailing_of [x01] = [x01] /\
  chunks (fst (parse Sample.env Sample.empty_world [x01])) = [] /\
  select_count (chunks (fst (parse Sample.env Sample.empty_world [x01])))
    (Sha1.Sum [x01]) = None.
Proof. vm_compute. repeat split; reflexivity. Qed.

(** C7 (as the code has it). One upsert leaves exactly one row for the
    hash: with count 1 when there was none, with the old count plus one
    otherwise; the counts of other hashes do not move.  Ingesting a
    content [n] times adds to the count of every hash [n] times the
    number of chunks of the content that have this hash; so the count is
    [n] for a hash that had no row and belongs to one chunk of the
    content. *)
Theorem upsert_counts_every_occurrence (rollsum : RollSumLib) (env : Env) :
  db_writes_succeed env ->
  (forall (t : Table) (chunk : bytes),
     select_count t (Sha1.Sum chunk) = None ->
     rows_with (upsert t chunk) (Sha1.Sum chunk) =
       [mkRow chunk (Sha1.Sum chunk) 1]) /\
  (forall (t : Table) (chunk : bytes) (k : Z),
     select_count t (Sha1.Sum chunk) = Some k ->
     rows_with (upsert t chunk) (Sha1.Sum chunk) =
       [mkRow chunk (Sha1.Sum chunk) (1 + k)]) /\
  (forall (t : Table) (chunk h : bytes),
     h <> Sha1.Sum chunk ->
     select_count (upsert t chunk) h = select_count t h) /\
  (forall (w : World) (content : bytes) (n : nat) (h : bytes),
     count_of (chunks (ingest_times env n content w)) h =
     count_of (chunks w) h + Z.of_nat n * occurrences h (chunks_of content)) /\
  (forall (w : World) (content : bytes) (n : nat) (h : bytes),
     select_count (chunks w) h = None ->
     occurrences h (chunks_of content) = 1 ->
     count_of (chunks (ingest_times env n content w)) h = Z.of_nat n).
Proof.
  intros OK.
  assert (Count : forall w content n h,
             count_of (chunks (ingest_times env n content w)) h =
             count_of (chunks w) h
             + Z.of_nat n * occurrences h (chunks_of content)).
  { intros. now rewrite (ingest_times_chunks env _ _ _ OK),
      count_of_iter_upsert. }
  repeat split.
  - intros t chunk E. unfold upsert. now rewrite rows_with_sqlUpSert, E.
  - intros t chunk k E. unfold upsert. now rewrite rows_with_sqlUpSert, E.
  - intros t chunk h NE. unfold upsert. rewrite select_count_sqlUpSert.
    destruct (blob_eqb (Sha1.Sum chunk) h) eqn:E; [|reflexivity].
    apply blob_eqb_eq in E. congruence.
  - exact Count.
  - intros w content n h E O. rewrite Count, O. unfold count_of.
    rewrite E. lia.
Qed.

(** C7 (as the spec has it) fails on the content [20 20]: it is cut into
    the chunk [20] twice, and one ingestion into an empty table leaves
    that chunk with the count 2. *)
Lemma ingest_once_counts_repeated_chunk_twice :
  chunks_of [x20; x20] = [[x20]; [x20]] /\
  chunks Sample.empty_world = [] /\
  select_count
    (chunks (ingest_times Sample.env 1 [x20; x20] Sample.empty_world))
    (Sha1.Sum [x20]) = Some 2.
Proof. vm_compute. repeat split; reflexivity. Qed.

(** The content [20 07 19 03 40], cut into [20] and [07 19], ingested
    three times: each digest ends with the count 3. *)
Lemma upsert_counts_every_occurrence_witness :
  count_of
    (chunks (ingest_times Sample.env 3 [x20; x07; x19; x03; x40]
               Sample.empty_world))
    (Sha1.Sum [x07; x19]) = 3.
Proof.
  destruct (upsert_counts_every_occurrence Sample.window_rollsum Sample.env
              sample_db_writes_succeed) as (_ & _ & _ & _ & Once).
  apply (Once Sample.empty_world [x20; x07; x19; x03; x40] 3%nat
           (Sha1.Sum [x07; x19])); reflexivity.
Defined.

(** ** The dictionary update *)

Lemma needToUpdate_ok (env : Env) (w : World) :
  db_query_succeeds env ->
  sdchDictChunks w <> [] ->
  needToUpdate env w =
  (w, (concat (map snd (popularChunks (chunks w))),
       map fst (popularChunks (chunks w)),
       exceeds_threshold
         (uniq_of
            (sort_Sort sliceslice_Less
               (combined (sdchDictChunks w)
                  (map fst (popularChunks (chunks w))))))
         (sdchDictChunks w))).
Proof.
  intros [Q R] NE. unfold needToUpdate.
  rewrite Q, scan_rows_eq, R.
  destruct (sdchDictChunks w); [now elim NE | reflexivity].
Qed.

Lemma needToUpdate_bootstrap (env : Env) (w : World) :
  db_query_succeeds env ->
  sdchDictChunks w = [] ->
  needToUpdate env w =
  (set_sdchDictChunks w (map fst (popularChunks (chunks w))), ([], [], false)).
Proof.
  intros [Q R] E. unfold needToUpdate.
  rewrite Q, scan_rows_eq, R, E. reflexivity.
Qed.

Lemma set_sdchDictChunks_same (w : World) :
  set_sdchDictChunks w (sdchDictChunks w) = w.
Proof. now destruct w. Qed.

(** C4. With a non-empty active set, [change] is the outcome of the
    comparison [ratio > 0.1] on [float64], where the ratio is [uniq] over
    the length of the active set; a ratio equal to the constant does not
    fire.  When it fires (and the file can be written) the file
    "dictraw" holds the contents of the candidate chunks end to end, in
    the order of the query, and the active set is the candidate hash
    sequence; when it does not fire, nothing changes. *)
Theorem makeDict_rebuilds_above_threshold (env : Env) (w : World) :
  db_query_succeeds env ->
  ioutil_WriteFile env = None ->
  sdchDictChunks w <> [] ->
  let candidates := popularChunks (chunks w) in
  let uniq :=
    uniq_of (sort_Sort sliceslice_Less
               (combined (sdchDictChunks w) (map fst candidates))) in
  let r := ratio uniq (sdchDictChunks w) in
  (snd (snd (needToUpdate env w)) = true <->
   PrimFloat.ltb threshold r = true) /\
  (r = threshold -> snd (snd (needToUpdate env w)) = false) /\
  (snd (snd (needToUpdate env w)) = true ->
   makeDict env w =
   (set_sdchDictChunks
      (set_dictraw w (Some (concat (map snd candidates))))
      (map fst candidates), None)) /\
  (snd (snd (needToUpdate env w)) = false -> makeDict env w = (w, None)).
Proof.
  intros Q W NE candidates uniq r.
  pose proof (needToUpdate_ok env w Q NE) as N.
  fold candidates in N. fold uniq in N. unfold exceeds_threshold in N.
  fold r in N. unfold makeDict. rewrite N, W. cbn [snd].
  clearbody r uniq candidates.
  split; [reflexivity|].
  split; [intros E; rewrite E; reflexivity|].
  split; intros E; rewrite E; reflexivity.
Qed.

(** The active set is [sha1(20)] and the query returns that one chunk:
    [uniq] is 1, the ratio is 1, and "dictraw" is written with [20]. *)
Lemma makeDict_rebuilds_above_threshold_witness :
  snd (snd (needToUpdate Sample.env Sample.adopted_world)) = true /\
  makeDict Sample.env Sample.adopted_world =
  (set_sdchDictChunks (set_dictraw Sample.adopted_world (Some [x20]))
     [Sha1.Sum [x20]], None).
Proof.
  destruct (makeDict_rebuilds_above_threshold Sample.env Sample.adopted_world
              sample_db_query_succeeds eq_refl)
    as (_ & _ & Rebuild & _); [discriminate|].
  assert (F : snd (snd (needToUpdate Sample.env Sample.adopted_world)) = true)
    by (vm_compute; reflexivity).
  split; [exact F|].
  rewrite (Rebuild F). vm_compute. reflexivity.
Defined.

(** The comparison on [float64] agrees with the comparison of the exact
    quotient with one tenth; this is checked by running it for every
    active set of up to 128 hashes and every [uniq] up to 256. *)
Lemma exceeds_threshold_checked :
  forallb
    (fun n =>
       forallb
         (fun u =>
            Bool.eqb (exceeds_threshold (Z.of_nat u) (repeat [] (S n)))
                     (Z.of_nat (S n) <? 10 * Z.of_nat u))
         (seq 0 257))
    (seq 0 128) = true.
Proof. vm_compute. reflexivity. Qed.

Lemma exceeds_threshold_exact (uniq : Z) (active : list bytes) :
  (1 <= length active <= 128)%nat ->
  0 <= uniq <= 256 ->
  exceeds_threshold uniq active = (Z.of_nat (length active) <? 10 * uniq).
Proof.
  intros Hn Hu.
  pose proof exceeds_threshold_checked as C.
  rewrite forallb_forall in C.
  specialize (C (length active - 1)%nat).
  rewrite forallb_forall in C.
  specialize (C ltac:(apply in_seq; lia) (Z.to_nat uniq)
                ltac:(apply in_seq; lia)).
  apply eqb_prop in C.
  unfold exceeds_threshold, ratio in *.
  rewrite repeat_length in C.
  replace (S (length active - 1)) with (length active) in C by lia.
  rewrite Z2Nat.id in C by lia. exact C.
Qed.

(** One unique hash for ten active ones is a ratio equal to the
    constant, and does not fire; two for ten is above it. *)
Example threshold_boundary :
  ratio 1 (repeat [] 10) = threshold /\
  exceeds_threshold 1 (repeat [] 10) = false /\
  exceeds_threshold 10 (repeat [] 100) = false /\
  exceeds_threshold 11 (repeat [] 100) = true /\
  exceeds_threshold 2 (repeat [] 10) = true.
Proof. vm_compute. repeat split; reflexivity. Qed.

(** C5. With an empty active set, [makeDict] adopts the hash sequence of
    the query as the active set, reports no error and leaves the file
    "dictraw" as it was, written or not. *)
Theorem makeDict_bootstrap_adopts_candidates (env : Env) (w : World) :
  db_query_succeeds env ->
  sdchDictChunks w = [] ->
  makeDict env w =
    (set_sdchDictChunks w (map fst (popularChunks (chunks w))), None) /\
  sdchDictChunks (fst (makeDict env w)) = map fst (popularChunks (chunks w)) /\
  dictraw (fst (makeDict env w)) = dictraw w.
Proof.
  intros Q E. unfold makeDict. rewrite (needToUpdate_bootstrap env w Q E).
  repeat split.
Qed.

Lemma makeDict_bootstrap_adopts_candidates_witness :
  makeDict Sample.env Sample.restarted_world =
    (set_sdchDictChunks Sample.restarted_world [Sha1.Sum [x20]], None) /\
  sdchDictChunks (fst (makeDict Sample.env Sample.restarted_world)) =
    [Sha1.Sum [x20]] /\
  dictraw (fst (makeDict Sample.env Sample.restarted_world)) = None.
Proof.
  pose proof (makeDict_bootstrap_adopts_candidates Sample.env
                Sample.restarted_world sample_db_query_succeeds eq_refl)
    as (Adopt & Active & File).
  rewrite Adopt. vm_compute. repeat split; reflexivity.
Defined.

(** ** Ingestion *)

(** C8. When the [vcdiff] process fails, [Eat] returns its error and
    nothing else happens: no goroutine is started, so [parse] does not
    run, and the table, the counters, the active set and the file are
    those of before the call. *)
Theorem Eat_failure_changes_nothing
    (env : Env) (w : World) (content : bytes) (err : error) :
  cmd_Run env (dictraw w) content = inr err ->
  Eat env w content = (w, inr err) /\
  chunks (fst (Eat env w content)) = chunks w /\
  goroutines (fst (Eat env w content)) = goroutines w /\
  totalBytesIn (fst (Eat env w content)) = totalBytesIn w.
Proof.
  intros F. unfold Eat. rewrite F. repeat split.
Qed.

(** No file "dictraw" exists yet, so the child process fails. *)
Lemma Eat_failure_changes_nothing_witness :
  Eat Sample.env Sample.restarted_world [x20; x01] =
    (Sample.restarted_world, inr Sample.cannot_open) /\
  chunks (fst (Eat Sample.env Sample.restarted_world [x20; x01])) =
    chunks Sample.restarted_world /\
  goroutines (fst (Eat Sample.env Sample.restarted_world [x20; x01])) =
    goroutines Sample.restarted_world /\
  totalBytesIn (fst (Eat Sample.env Sample.restarted_world [x20; x01])) =
    totalBytesIn Sample.restarted_world.
Proof.
  exact (Eat_failure_changes_nothing Sample.env Sample.restarted_world
           [x20; x01] Sample.cannot_open eq_refl).
Defined.

(** When the process succeeds, one goroutine is started for the content. *)
Lemma Eat_success_spawns (env : Env) (w : World) (content diff : bytes) :
  cmd_Run env (dictraw w) content = inl diff ->
  Eat env w content = (spawn w content, inl diff).
Proof. intros S. unfold Eat. now rewrite S. Qed.

Lemma uint64_add_0 (x : Z) : is_uint64 x -> uint64_add x 0 = x.
Proof.
  unfold is_uint64, uint64_add. intros R.
  rewrite Z.add_0_r. now apply Z.mod_small.
Qed.

(** C10. On the empty content [parse] cuts no chunk, issues no upsert and
    counts no byte, and still runs [makeDict] on the unchanged state: the
    table and [totalBytesIn] stay as they were, while the active set or
    the dictionary file can change.  After a restart the call adopts the
    popular chunk of the table; once adopted, the call writes the
    dictionary file. *)
Theorem parse_empty_content_runs_makeDict
    (rollsum : RollSumLib) (env : Env) (w : World) :
  db_writes_succeed env ->
  is_uint64 (totalBytesDup w) ->
  chunks_of [] = [] /\
  parse env w [] = makeDict env w /\
  chunks (fst (parse env w [])) = chunks w /\
  totalBytesIn (fst (parse env w [])) = totalBytesIn w /\
  sdchDictChunks (fst (parse Sample.env Sample.restarted_world [])) =
    [Sha1.Sum [x20]] /\
  sdchDictChunks Sample.restarted_world = [] /\
  dictraw (fst (parse Sample.env Sample.adopted_world [])) = Some [x20] /\
  dictraw Sample.adopted_world = None.
Proof.
  intros OK U.
  assert (P : parse env w [] = makeDict env w).
  { rewrite (parse_ok env w [] OK). simpl.
    rewrite (uint64_add_0 _ U). now destruct w. }
  split; [reflexivity|].
  split; [exact P|].
  rewrite P, makeDict_chunks, makeDict_totalBytesIn.
  split; [reflexivity|].
  split; [reflexivity|].
  split; [vm_compute; reflexivity|].
  split; [reflexivity|].
  split; [vm_compute; reflexivity | reflexivity].
Qed.

Lemma parse_empty_content_runs_makeDict_witness :
  parse Sample.env Sample.adopted_world [] =
    makeDict Sample.env Sample.adopted_world /\
  chunks (fst (parse Sample.env Sample.adopted_world [])) =
    chunks Sample.adopted_world /\
  totalBytesIn (fst (parse Sample.env Sample.adopted_world [])) =
    totalBytesIn Sample.adopted_world.
Proof.
  destruct (parse_empty_content_runs_makeDict Sample.window_rollsum Sample.env
              Sample.adopted_world sample_db_writes_succeed)
    as (_ & Same & Table & Bytes & _).
  - unfold is_uint64. simpl. lia.
  - exact (conj Same (conj Table Bytes)).
Defined.

(** * Further properties of the package *)

(** ** How [parse] cuts a content *)

Section ChunkerFacts.
Context {rollsum : RollSumLib}.

(** The first chunk holds the pending bytes and at least one more. *)
Lemma split_from_first (q : bytes) (r : RollSum) (pending c : bytes)
    (cs : list bytes) (rest : bytes) :
  split_from r pending q = (c :: cs, rest) ->
  exists more, more <> [] /\ c = pending ++ more.
Proof.
  revert r pending; induction q as [|b q IH]; intros r pending E;
    [discriminate|].
  cbn [split_from] in E.
  destruct (OnSplitWithBits (Roll r b) 5).
  - destruct (split_from (Roll r b) [] q) as [cs' rest'].
    injection E as <- _ _. exists [b]. split; [discriminate | reflexivity].
  - apply IH in E as (more & _ & ->).
    exists (b :: more). split; [discriminate|]. now rewrite <- app_assoc.
Qed.

Lemma split_from_leading (q : bytes) (r : RollSum) (pending : bytes)
    (m : nat) :
  (1 <= m <= length (fst (split_from r pending q)))%nat ->
  (length pending + 1 <=
   length (concat (firstn m (fst (split_from r pending q)))))%nat.
Proof.
  destruct (split_from r pending q) as [[|c cs] rest] eqn:E; simpl;
    [lia|].
  intros Hm. destruct m as [|m]; [lia|].
  apply split_from_first in E as (more & NE & ->).
  simpl. rewrite !length_app. destruct more; [now elim NE | simpl; lia].
Qed.

Lemma split_from_nonempty (q : bytes) (r : RollSum) (pending : bytes) :
  Forall (fun c => c <> []) (fst (split_from r pending q)).
Proof.
  revert r pending; induction q as [|b q IH]; intros r pending;
    [constructor|].
  cbn [split_from].
  destruct (OnSplitWithBits (Roll r b) 5); [|apply IH].
  specialize (IH (Roll r b) []).
  destruct (split_from (Roll r b) [] q) as [cs rest]. simpl in *.
  constructor; [now destruct pending | exact IH].
Qed.

Lemma chunks_of_nonempty (content : bytes) :
  Forall (fun c => c <> []) (chunks_of content).
Proof. apply split_from_nonempty. Qed.

(** Cutting a content in two pieces, with the checksum and the pending
    bytes carried over, is cutting it whole. *)
Lemma split_from_app (a b : bytes) (r : RollSum) (pending : bytes) :
  split_from r pending (a ++ b) =
  (fst (split_from r pending a)
     ++ fst (split_from (fold_left Roll a r)
               (snd (split_from r pending a)) b),
   snd (split_from (fold_left Roll a r) (snd (split_from r pending a)) b)).
Proof.
  revert r pending; induction a as [|x a IH]; intros r pending.
  - simpl. now destruct (split_from r pending b).
  - simpl app. cbn [split_from fold_left].
    destruct (OnSplitWithBits (Roll r x) 5).
    + rewrite IH. destruct (split_from (Roll r x) [] a) as [cs rest].
      reflexivity.
    + apply IH.
Qed.

(** The prefixes that end on a boundary are the ones made of leading
    chunks. *)
Lemma split_from_cuts (q : bytes) (r : RollSum) (pending : bytes) (j : nat) :
  (1 <= j <= length q)%nat ->
  OnSplitWithBits (fold_left Roll (firstn j q) r) 5 = true <->
  exists m,
    (1 <= m <= length (fst (split_from r pending q)))%nat /\
    (length pending + j)%nat =
    length (concat (firstn m (fst (split_from r pending q)))).
Proof.
  revert r pending j; induction q as [|b q IH]; intros r pending j Hj;
    [simpl in Hj; lia|].
  destruct j as [|j]; [lia|]. simpl in Hj.
  cbn [firstn fold_left split_from].
  destruct j as [|j].
  - (* the prefix ends with [b] *)
    rewrite firstn_O. cbn [fold_left].
    destruct (OnSplitWithBits (Roll r b) 5) eqn:Hit.
    + destruct (split_from (Roll r b) [] q) as [cs rest]. cbn [fst].
      split; [intros _|reflexivity].
      exists 1%nat. simpl. rewrite app_nil_r, length_app. simpl. lia.
    + split; [discriminate|]. intros (m & Hm & E).
      pose proof (split_from_leading q (Roll r b) (pending ++ [b]) m Hm)
        as L.
      rewrite length_app in L. simpl in L. lia.
  - (* the prefix goes on after [b] *)
    destruct (OnSplitWithBits (Roll r b) 5) eqn:Hit.
    + rewrite (IH (Roll r b) [] (S j)) by lia.
      destruct (split_from (Roll r b) [] q) as [cs rest]. cbn [fst].
      split; intros (m & Hm & E).
      * exists (S m). simpl in *. rewrite length_app, length_app.
        simpl. lia.
      * destruct m as [|m]; [lia|]. simpl in E.
        rewrite length_app, length_app in E. simpl in E.
        destruct m as [|m]; [simpl in E; lia|].
        exists (S m). simpl in *. lia.
    + rewrite (IH (Roll r b) (pending ++ [b]) (S j)) by lia.
      rewrite length_app. simpl.
      split; intros (m & Hm & E); exists m; (split; [exact Hm | lia]).
Qed.

(** X1. A non-empty prefix of the content ends on a boundary exactly
    when it is the concatenation of some leading chunks: [parse] cuts at
    every byte where the boundary test holds and nowhere else. *)
Theorem chunks_end_at_boundaries (content : bytes) (k : nat) :
  (1 <= k <= length content)%nat ->
  ends_on_boundary (firstn k content) = true <->
  exists m,
    (1 <= m <= length (chunks_of content))%nat /\
    k = length (concat (firstn m (chunks_of content))).
Proof.
  intros Hk. unfold ends_on_boundary, chunks_of.
  rewrite (split_from_cuts content rollsum_New [] k Hk). reflexivity.
Qed.

(** X2. Chunking is incremental: the chunks of [a ++ b] are the chunks
    of [a] followed by what the loop cuts from [b] when it goes on with
    the checksum and the pending bytes left by [a]; the chunks of a
    prefix are never cut again. *)
Theorem chunks_of_app (a b : bytes) :
  chunks_of (a ++ b) =
    chunks_of a
      ++ fst (split_from (fold_left Roll a rollsum_New) (trailing_of a) b) /\
  trailing_of (a ++ b) =
    snd (split_from (fold_left Roll a rollsum_New) (trailing_of a) b) /\
  firstn (length (chunks_of a)) (chunks_of (a ++ b)) = chunks_of a.
Proof.
  unfold chunks_of, trailing_of. rewrite split_from_app. cbn [fst snd].
  repeat split. now rewrite firstn_app, Nat.sub_diag, firstn_all, app_nil_r.
Qed.

End ChunkerFacts.

(** The content [20 07 19 03 40] is cut after its first and its third
    byte. *)
Lemma chunks_end_at_boundaries_witness :
  ends_on_boundary (firstn 3 [x20; x07; x19; x03; x40]) = true.
Proof.
  apply (chunks_end_at_boundaries [x20; x07; x19; x03; x40] 3).
  - simpl. lia.
  - exists 2%nat. split; [simpl; lia | reflexivity].
Defined.

(** ** [parse] when calls fail *)

Section FaultFacts.
Context {rollsum : RollSumLib}.
Variable env : Env.

(** A loop that ran to its end has upserted every chunk and counted
    every byte. *)
Lemma parse_loop_done (q : bytes) (v v' : LoopVars) :
  parse_loop env q v = (v', None) ->
  tx v' = fold_left upsert (fst (split_from (rs v) (buf v) q)) (tx v) /\
  bytesIn v' = Nat.iter (length q) uint64_incr (bytesIn v).
Proof.
  revert v; induction q as [|b q IH]; intros [r pending t n k] E.
  - injection E as <-. split; reflexivity.
  - cbn [parse_loop rs buf tx bytesIn execs] in E.
    cbn [split_from rs buf tx bytesIn length].
    rewrite Nat.iter_succ_r.
    destruct (OnSplitWithBits (Roll r b) 5).
    + destruct (stmt_Exec env k); [discriminate|].
      apply IH in E as [T B]. cbn [rs buf tx bytesIn] in T, B.
      destruct (split_from (Roll r b) [] q) as [cs rest].
      split; [exact T | exact B].
    + apply IH in E as [T B]. cbn [rs buf tx bytesIn] in T, B.
      split; [exact T | exact B].
Qed.

(** A loop stopped by the [n]-th [Exec] has counted the bytes of the
    chunks up to that one. *)
Lemma parse_loop_exec_fails (q : bytes) (v : LoopVars) (n : nat) (e : error) :
  (forall i, (i < n)%nat -> stmt_Exec env (execs v + i) = None) ->
  stmt_Exec env (execs v + n) = Some e ->
  (n < length (fst (split_from (rs v) (buf v) q)))%nat ->
  snd (parse_loop env q v) = Some e /\
  bytesIn (fst (parse_loop env q v)) =
  Nat.iter
    (length (concat (firstn (S n) (fst (split_from (rs v) (buf v) q))))
     - length (buf v))
    uint64_incr (bytesIn v).
Proof.
  revert v n; induction q as [|b q IH]; intros [r pending t x k] n Ok Bad Hn;
    cbn [rs buf tx bytesIn execs] in *; [simpl in Hn; lia|].
  cbn [parse_loop split_from rs buf tx bytesIn execs] in *.
  destruct (OnSplitWithBits (Roll r b) 5) eqn:Hit.
  - destruct (split_from (Roll r b) [] q) as [cs rest] eqn:E.
    cbn [fst length] in Hn.
    destruct n as [|n].
    + rewrite Nat.add_0_r in Bad. rewrite Bad. cbn [fst snd bytesIn].
      split; [reflexivity|]. cbn [fst firstn concat].
      rewrite app_nil_r, length_app. simpl length.
      replace (length pending + 1 - length pending)%nat with 1%nat by lia.
      reflexivity.
    + assert (K : stmt_Exec env k = None)
        by (rewrite <- (Ok 0%nat ltac:(lia)); f_equal; lia).
      rewrite K.
      specialize (IH (mkLoop (Roll r b) [] (sqlUpSert t (pending ++ [b])
                                (Sha1.Sum (pending ++ [b]))
                                (Sha1.Sum (pending ++ [b])))
                        (uint64_incr x) (S k)) n).
      cbn [rs buf tx bytesIn execs] in IH. rewrite E in IH.
      destruct IH as [R B].
      * intros i Hi. rewrite <- (Ok (S i) ltac:(lia)). f_equal. lia.
      * rewrite <- Bad. f_equal. lia.
      * simpl in Hn |- *. lia.
      * split; [exact R|]. rewrite B. cbn [fst firstn concat].
        rewrite <- Nat.iter_succ_r. f_equal.
        rewrite !length_app. simpl length. lia.
  - specialize (IH (mkLoop (Roll r b) (pending ++ [b]) t (uint64_incr x) k)
                  n Ok Bad Hn).
    cbn [rs buf tx bytesIn execs] in IH. destruct IH as [R B].
    split; [exact R|]. rewrite B, <- Nat.iter_succ_r. f_equal.
    pose proof (split_from_leading q (Roll r b) (pending ++ [b]) (S n)
                  ltac:(lia)) as L.
    rewrite length_app in L |- *. simpl length in *. lia.
Qed.

Lemma makeDict_totalBytesDup (w : World) :
  totalBytesDup (fst (makeDict env w)) = totalBytesDup w.
Proof.
  unfold makeDict.
  pose proof (needToUpdate_counters env w) as (_ & N & _).
  destruct (needToUpdate env w) as [w' [[contents hashes] change]].
  simpl in N. destruct change; [|exact N].
  now destruct (ioutil_WriteFile env) as [[remains err]|].
Qed.

Lemma makeDict_goroutines (w : World) :
  goroutines (fst (makeDict env w)) = goroutines w.
Proof.
  unfold makeDict.
  pose proof (needToUpdate_counters env w) as (_ & _ & _ & N).
  destruct (needToUpdate env w) as [w' [[contents hashes] change]].
  simpl in N. destruct change; [|exact N].
  now destruct (ioutil_WriteFile env) as [[remains err]|].
Qed.

(** A failed query, or a failed walk over its rows, makes [makeDict] do
    nothing and report no error. *)
Lemma makeDict_query_failure (w : World) :
  db_Query env <> None \/ rows_Err env <> None ->
  makeDict env w = (w, None).
Proof.
  intros F. unfold makeDict, needToUpdate.
  destruct (db_Query env); [reflexivity|].
  destruct (scan_rows _) as [contents hashes].
  destruct (rows_Err env); [reflexivity|].
  destruct F as [F|F]; now elim F.
Qed.

(** X3. Whatever fails, the table after [parse] is either the table of
    before, and then the active set and the dictionary file are those of
    before too, or the table of before with every chunk of the content
    upserted: no part of a content is ever stored without the rest. *)
Theorem parse_stores_all_or_nothing (w : World) (content : bytes) :
  (chunks (fst (parse env w content)) = chunks w /\
   sdchDictChunks (fst (parse env w content)) = sdchDictChunks w /\
   dictraw (fst (parse env w content)) = dictraw w) \/
  chunks (fst (parse env w content)) =
    fold_left upsert (chunks_of content) (chunks w).
Proof.
  unfold parse.
  destruct (db_Begin env); [now left|].
  destruct (tx_Prepare env); [now left|].
  destruct (parse_loop env content _) as [v [err|]] eqn:L; [now left|].
  destruct (stmt_Close env); [now left|].
  destruct (tx_Commit env); [now left|].
  right. rewrite makeDict_chunks. cbn [chunks set_chunks].
  now apply parse_loop_done in L as [T _].
Qed.

(** X4. When [stmt.Close] or [tx.Commit] fails after a loop without
    failure, [parse] returns a nil error although nothing was stored:
    the table, the active set and the file are those of before,
    [makeDict] is not run, and only [totalBytesIn] has moved. *)
Theorem parse_hides_commit_failure (w : World) (content : bytes) :
  db_Begin env = None ->
  tx_Prepare env = None ->
  (forall n, stmt_Exec env n = None) ->
  stmt_Close env <> None \/ tx_Commit env <> None ->
  is_uint64 (totalBytesDup w) ->
  parse env w content =
  (set_totalBytesIn w
     (Nat.iter (length content) uint64_incr (totalBytesIn w)), None).
Proof.
  intros B P X F U. unfold parse.
  rewrite B, P, (parse_loop_ok env _ _ X). cbn [bytesIn].
  rewrite uint64_add_0 by exact U.
  destruct (stmt_Close env); [reflexivity|].
  destruct (tx_Commit env); [reflexivity|].
  destruct F as [F|F]; now elim F.
Qed.

(** X5. When the [n]-th [Exec] is the first to fail, [parse] returns
    its error at once: nothing is stored, [makeDict] is not run, and
    [totalBytesIn] has advanced by the bytes of the chunks up to and
    including the one that could not be written. *)
Theorem parse_stops_at_failed_exec
    (w : World) (content : bytes) (n : nat) (e : error) :
  db_Begin env = None ->
  tx_Prepare env = None ->
  (forall i, (i < n)%nat -> stmt_Exec env i = None) ->
  stmt_Exec env n = Some e ->
  (n < length (chunks_of content))%nat ->
  parse env w content =
  (set_totalBytesIn w
     (Nat.iter (length (concat (firstn (S n) (chunks_of content))))
        uint64_incr (totalBytesIn w)), Some e).
Proof.
  intros B P Ok Bad Hn. unfold parse. rewrite B, P.
  pose proof (parse_loop_exec_fails content
                (mkLoop rollsum_New [] (chunks w) (totalBytesIn w) 0)
                n e Ok Bad Hn) as [R T].
  cbn [rs buf tx bytesIn execs length] in R, T.
  rewrite Nat.sub_0_r in T. fold (chunks_of content) in T.
  destruct (parse_loop env content _) as [v failed].
  cbn [fst snd] in R, T. subst failed. now rewrite T.
Qed.

(** X6. When the query of [needToUpdate] fails, [parse] still commits
    the chunks and returns a nil error; the active set and the
    dictionary file stay as they were. *)
Theorem parse_commits_despite_query_failure (w : World) (content : bytes) :
  db_writes_succeed env ->
  db_Query env <> None \/ rows_Err env <> None ->
  is_uint64 (totalBytesDup w) ->
  parse env w content =
  (set_chunks
     (set_totalBytesIn w
        (Nat.iter (length content) uint64_incr (totalBytesIn w)))
     (fold_left upsert (chunks_of content) (chunks w)), None).
Proof.
  intros OK F U. rewrite (parse_ok env w content OK).
  rewrite (makeDict_query_failure _ F), (uint64_add_0 _ U).
  now destruct w.
Qed.

End FaultFacts.

Lemma parse_hides_commit_failure_witness :
  parse Faults.commit_fails Sample.empty_world [x20; x07; x19; x03; x40] =
  (mkWorld [] [] 0 5 None [], None).
Proof.
  rewrite (parse_hides_commit_failure Faults.commit_fails Sample.empty_world
             [x20; x07; x19; x03; x40] eq_refl eq_refl (fun _ => eq_refl)).
  - reflexivity.
  - right. discriminate.
  - unfold is_uint64. simpl. lia.
Defined.

Lemma parse_stops_at_failed_exec_witness :
  parse Faults.second_exec_fails Sample.empty_world
    [x20; x07; x19; x03; x40] =
  (mkWorld [] [] 0 3 None [], Some Faults.disk_full).
Proof.
  rewrite (parse_stops_at_failed_exec Faults.second_exec_fails
             Sample.empty_world [x20; x07; x19; x03; x40] 1
             Faults.disk_full eq_refl eq_refl).
  - reflexivity.
  - intros [|i] Hi; [reflexivity | lia].
  - reflexivity.
  - simpl. lia.
Defined.

Lemma parse_commits_despite_query_failure_witness :
  parse Faults.query_fails Sample.empty_world [x20; x07; x19; x03; x40] =
  (mkWorld [row_of 1 [x20]; row_of 1 [x07; x19]] [] 0 5 None [], None).
Proof.
  rewrite (parse_commits_despite_query_failure Faults.query_fails
             Sample.empty_world [x20; x07; x19; x03; x40]).
  - vm_compute. reflexivity.
  - repeat split.
  - left. discriminate.
  - unfold is_uint64. simpl. lia.
Defined.

(** ** When the dictionary is rebuilt *)

Lemma sliceslice_Less_nil (x : bytes) : sliceslice_Less x [] = false.
Proof. now destruct x. Qed.

Lemma insert_sorted_under_nil (x : bytes) (l : list bytes) :
  insert_sorted sliceslice_Less x ([] :: l) =
  [] :: insert_sorted sliceslice_Less x l.
Proof. simpl. now rewrite sliceslice_Less_nil. Qed.

Lemma insert_sorted_nil (l : list bytes) :
  exists rest, insert_sorted sliceslice_Less [] l = [] :: rest.
Proof.
  destruct l as [|y l]; simpl; [now exists []|].
  destruct y as [|b y]; simpl; eauto.
Qed.

(** Two nil entries in the slice are its first two entries once it is
    sorted. *)
Lemma sort_Sort_two_nils (active : list bytes) (m : nat) :
  (2 <= m)%nat ->
  exists rest,
    sort_Sort sliceslice_Less (active ++ repeat [] m) = [] :: [] :: rest.
Proof.
  intros Hm. destruct m as [|[|m]]; try lia.
  induction active as [|a active (rest & IH)].
  - simpl.
    destruct (insert_sorted_nil (sort_Sort sliceslice_Less (repeat [] m)))
      as (rest & ->).
    rewrite insert_sorted_under_nil.
    destruct (insert_sorted_nil rest) as (rest' & ->). now exists rest'.
  - change (sort_Sort sliceslice_Less ((a :: active) ++ repeat [] (S (S m))))
      with (insert_sorted sliceslice_Less a
              (sort_Sort sliceslice_Less (active ++ repeat [] (S (S m))))).
    rewrite IH, !insert_sorted_under_nil. eauto.
Qed.

(** A ratio of zero is not above the threshold, for an active set of any
    length. *)
Lemma exceeds_threshold_zero (active : list bytes) :
  exceeds_threshold 0 active = false.
Proof.
  unfold exceeds_threshold, ratio.
  rewrite FloatAxioms.ltb_spec, FloatAxioms.div_spec.
  change (Prim2SF (float64_of_int 0)) with (S754_zero false).
  destruct (Prim2SF (float64_of_int (Z.of_nat (length active))))
    as [s|s| |s m e]; try destruct s; reflexivity.
Qed.

(** With a non-empty active set and two candidates or more, [change] is
    false. *)
Lemma needToUpdate_two_candidates (env : Env) (w : World) :
  db_query_succeeds env ->
  sdchDictChunks w <> [] ->
  (2 <= length (popularChunks (chunks w)))%nat ->
  needToUpdate env w =
  (w, (concat (map snd (popularChunks (chunks w))),
       map fst (popularChunks (chunks w)), false)).
Proof.
  intros Q NE Two. rewrite (needToUpdate_ok env w Q NE).
  rewrite combined_eq, length_map.
  destruct (sort_Sort_two_nils (sdchDictChunks w) _ Two) as (rest & ->).
  now rewrite uniq_of_duplicate_head, exceeds_threshold_zero.
Qed.

Lemma makeDict_two_candidates (env : Env) (w : World) :
  sdchDictChunks w <> [] ->
  (2 <= length (popularChunks (chunks w)))%nat ->
  makeDict env w = (w, None).
Proof.
  intros NE Two.
  destruct (db_Query env) as [e|] eqn:Q;
    [apply makeDict_query_failure; left; congruence|].
  destruct (rows_Err env) as [e|] eqn:R;
    [apply makeDict_query_failure; right; congruence|].
  unfold makeDict.
  now rewrite (needToUpdate_two_candidates env w (conj Q R) NE Two).
Qed.

(** With one active hash and one candidate, [change] is true. *)
Lemma needToUpdate_one_candidate (env : Env) (w : World)
    (h h' c : bytes) :
  db_query_succeeds env ->
  sdchDictChunks w = [h] ->
  h <> [] ->
  popularChunks (chunks w) = [(h', c)] ->
  needToUpdate env w = (w, (c, [h'], true)).
Proof.
  intros Q A NE One.
  rewrite (needToUpdate_ok env w Q) by (rewrite A; discriminate).
  rewrite One, A. simpl map. simpl concat. rewrite app_nil_r.
  destruct h as [|b h]; [now elim NE|]. reflexivity.
Qed.

(** X7. While exactly one chunk is popular and it is the active set,
    every call of [makeDict] fires: the file "dictraw" is written again
    with the content of that chunk, changed or not. *)
Theorem makeDict_rewrites_single_chunk
    (env : Env) (w : World) (h h' c : bytes) :
  db_query_succeeds env ->
  ioutil_WriteFile env = None ->
  sdchDictChunks w = [h] ->
  h <> [] ->
  popularChunks (chunks w) = [(h', c)] ->
  makeDict env w =
  (set_sdchDictChunks (set_dictraw w (Some c)) [h'], None).
Proof.
  intros Q W A NE One. unfold makeDict.
  now rewrite (needToUpdate_one_candidate env w h h' c Q A NE One), W.
Qed.

Lemma makeDict_rewrites_single_chunk_witness :
  makeDict Sample.env Sample.adopted_world =
  (set_sdchDictChunks (set_dictraw Sample.adopted_world (Some [x20]))
     [Sha1.Sum [x20]], None).
Proof.
  apply (makeDict_rewrites_single_chunk Sample.env Sample.adopted_world
           (Sha1.Sum [x20]) (Sha1.Sum [x20]) [x20]
           sample_db_query_succeeds eq_refl eq_refl).
  - vm_compute. discriminate.
  - reflexivity.
Defined.

(** X8. When the write of "dictraw" fails, [makeDict] returns the error
    and does not replace the active set: the file holds what the failed
    write left, and the active set still names the old dictionary. *)
Theorem makeDict_write_failure_keeps_active_set
    (env : Env) (w : World) (h h' c : bytes) (remains : option bytes)
    (e : error) :
  db_query_succeeds env ->
  ioutil_WriteFile env = Some (remains, e) ->
  sdchDictChunks w = [h] ->
  h <> [] ->
  popularChunks (chunks w) = [(h', c)] ->
  makeDict env w = (set_dictraw w remains, Some e) /\
  sdchDictChunks (fst (makeDict env w)) = [h].
Proof.
  intros Q W A NE One. unfold makeDict.
  rewrite (needToUpdate_one_candidate env w h h' c Q A NE One), W.
  split; [reflexivity | exact A].
Qed.

Lemma makeDict_write_failure_keeps_active_set_witness :
  makeDict Faults.write_fails Sample.adopted_world =
    (set_dictraw Sample.adopted_world (Some []), Some Faults.disk_full) /\
  sdchDictChunks (fst (makeDict Faults.write_fails Sample.adopted_world)) =
    [Sha1.Sum [x20]].
Proof.
  apply (makeDict_write_failure_keeps_active_set Faults.write_fails
           Sample.adopted_world (Sha1.Sum [x20]) (Sha1.Sum [x20]) [x20]).
  - split; reflexivity.
  - reflexivity.
  - reflexivity.
  - vm_compute. discriminate.
  - reflexivity.
Defined.

(** ** What the table keeps *)

Lemma select_count_In (t : Table) (h : bytes) (c : Z) :
  select_count t h = Some c ->
  exists r, In r t /\ hash r = h /\ count r = c.
Proof.
  induction t as [|r t IH]; simpl; [discriminate|].
  destruct (blob_eqb (hash r) h) eqn:E.
  - intros [= <-]. apply blob_eqb_eq in E. exists r. auto.
  - intros S. destruct (IH S) as (r' & I & H). exists r'. auto.
Qed.

Lemma select_count_unique (t : Table) (r : Row) :
  unique_hashes t -> In r t -> select_count t (hash r) = Some (count r).
Proof.
  unfold unique_hashes.
  induction t as [|r0 t IH]; simpl; intros U I; [easy|].
  apply NoDup_cons_iff in U as [Fresh U].
  destruct I as [->|I]; [now rewrite blob_eqb_refl|].
  destruct (blob_eqb (hash r0) (hash r)) eqn:E; [|now apply IH].
  apply blob_eqb_eq in E. elim Fresh. rewrite E. now apply in_map.
Qed.

Lemma popular_hash_iff (t : Table) (h : bytes) :
  In h (map fst (popularChunks t)) <->
  exists r, In r t /\ hash r = h /\ 1 < count r.
Proof.
  unfold popularChunks. rewrite map_map. simpl. rewrite in_map_iff.
  split; intros (r & A & B).
  - apply (Permutation_in _ (popular_rows_perm t)), filter_In in B
      as [I C].
    exists r. repeat split; [exact I | exact A | now apply Z.ltb_lt].
  - destruct B as [H C]. exists r. split; [exact H|].
    apply (Permutation_in _ (Permutation_sym (popular_rows_perm t))).
    apply filter_In. split; [exact A | now apply Z.ltb_lt].
Qed.

Lemma popular_hash_count_of (t : Table) (h : bytes) :
  unique_hashes t ->
  In h (map fst (popularChunks t)) <-> 1 < count_of t h.
Proof.
  intros U. rewrite popular_hash_iff. unfold count_of. split.
  - intros (r & I & <- & C). now rewrite (select_count_unique t r U I).
  - destruct (select_count t h) as [c|] eqn:S; [|lia].
    intros C. destruct (select_count_In t h c S) as (r & I & H & <-).
    exists r. auto.
Qed.

Lemma occurrences_nonneg (h : bytes) (cs : list bytes) :
  0 <= occurrences h cs.
Proof. unfold occurrences. lia. Qed.

Lemma popular_hashes_NoDup (t : Table) :
  unique_hashes t -> NoDup (map fst (popularChunks t)).
Proof.
  intros U. unfold popularChunks. rewrite map_map. simpl.
  eapply Permutation_NoDup;
    [apply Permutation_map, Permutation_sym, popular_rows_perm|].
  now apply unique_hashes_filter.
Qed.

(** Upserts keep every popular hash popular. *)
Lemma popular_hashes_grow (cs : list bytes) (t : Table) :
  unique_hashes t ->
  incl (map fst (popularChunks t))
       (map fst (popularChunks (fold_left upsert cs t))).
Proof.
  intros U h I.
  apply popular_hash_count_of; [now apply fold_upsert_unique_hashes|].
  apply (popular_hash_count_of t h U) in I.
  rewrite count_of_fold_upsert. pose proof (occurrences_nonneg h cs). lia.
Qed.

Lemma popular_count_grows (cs : list bytes) (t : Table) :
  unique_hashes t ->
  (length (popularChunks t) <=
   length (popularChunks (fold_left upsert cs t)))%nat.
Proof.
  intros U.
  rewrite <- (length_map fst (popularChunks t)).
  rewrite <- (length_map fst (popularChunks (fold_left upsert cs t))).
  apply NoDup_incl_length;
    [now apply popular_hashes_NoDup | now apply popular_hashes_grow].
Qed.

Lemma upsert_table_ok (t : Table) (chunk : bytes) :
  chunk <> [] -> table_ok t -> table_ok (upsert t chunk).
Proof.
  intros NE [U F]. split; [now apply sqlUpSert_unique_hashes|].
  unfold upsert, sqlUpSert. apply Forall_app. split.
  - rewrite Forall_forall in *. intros r I.
    apply filter_In in I as [I _]. now apply F.
  - constructor; [|constructor].
    repeat split; [exact NE|]. cbn [count].
    destruct (select_count t (Sha1.Sum chunk)) as [k|] eqn:S; [|lia].
    destruct (select_count_In _ _ _ S) as (r & I & _ & <-).
    rewrite Forall_forall in F. destruct (F r I) as (_ & _ & C). lia.
Qed.

Lemma fold_upsert_table_ok (cs : list bytes) (t : Table) :
  Forall (fun c => c <> []) cs -> table_ok t ->
  table_ok (fold_left upsert cs t).
Proof.
  revert t; induction cs as [|c cs IH]; intros t NE OK; [exact OK|].
  inversion NE as [|? ? NEc NEcs]; subst. simpl.
  apply IH; [exact NEcs | now apply upsert_table_ok].
Qed.

Section TableFacts.
Context {rollsum : RollSumLib}.
Variable env : Env.

(** The two ways [parse] can end: before the commit, or with
    [makeDict] run on the committed table. *)
Lemma parse_cases (w : World) (content : bytes) :
  (chunks (fst (parse env w content)) = chunks w /\
   sdchDictChunks (fst (parse env w content)) = sdchDictChunks w /\
   dictraw (fst (parse env w content)) = dictraw w) \/
  (exists w',
     chunks w' = fold_left upsert (chunks_of content) (chunks w) /\
     sdchDictChunks w' = sdchDictChunks w /\
     dictraw w' = dictraw w /\
     fst (parse env w content) = fst (makeDict env w')).
Proof.
  unfold parse.
  destruct (db_Begin env); [now left|].
  destruct (tx_Prepare env); [now left|].
  destruct (parse_loop env content _) as [v [err|]] eqn:L; [now left|].
  destruct (stmt_Close env); [now left|].
  destruct (tx_Commit env); [now left|].
  right. apply parse_loop_done in L as [T _]. cbn [rs buf tx] in T.
  exists (set_chunks
            (set_totalBytesDup (set_totalBytesIn w (bytesIn v))
               (uint64_add
                  (totalBytesDup (set_totalBytesIn w (bytesIn v))) 0))
            (tx v)).
  split; [exact T|]. split; [reflexivity|]. split; reflexivity.
Qed.

Lemma parse_chunks_cases (w : World) (content : bytes) :
  chunks (fst (parse env w content)) = chunks w \/
  chunks (fst (parse env w content)) =
    fold_left upsert (chunks_of content) (chunks w).
Proof.
  destruct (parse_cases w content) as [(C & _)|(w' & C & _ & _ & E)];
    [now left|].
  right. now rewrite E, makeDict_chunks.
Qed.

(** X9. [parse] keeps the chunk table well formed, whatever fails: one
    row per hash, and in every row a content that is not empty, its
    SHA-1 digest as the hash, and a count of at least 1. *)
Theorem parse_keeps_table_ok (w : World) (content : bytes) :
  table_ok (chunks w) -> table_ok (chunks (fst (parse env w content))).
Proof.
  intros OK. destruct (parse_chunks_cases w content) as [-> | ->];
    [exact OK|].
  apply fold_upsert_table_ok; [apply chunks_of_nonempty | exact OK].
Qed.

(** X10. No call of [parse] lowers a count, and a hash that the query
    for popular chunks returns is returned after every later call: the
    candidate set only grows. *)
Theorem parse_never_forgets (w : World) (content : bytes) :
  unique_hashes (chunks w) ->
  (forall h, count_of (chunks w) h <=
             count_of (chunks (fst (parse env w content))) h) /\
  (forall h, In h (map fst (popularChunks (chunks w))) ->
             In h (map fst (popularChunks
                              (chunks (fst (parse env w content)))))).
Proof.
  intros U. destruct (parse_chunks_cases w content) as [-> | ->].
  - split; [intros; lia | auto].
  - split.
    + intros h. rewrite count_of_fold_upsert.
      pose proof (occurrences_nonneg h (chunks_of content)). lia.
    + intros h. now apply popular_hashes_grow.
Qed.

(** One call leaves the state of a frozen dictionary as it found it. *)
Lemma parse_frozen (w : World) (content : bytes) :
  unique_hashes (chunks w) ->
  sdchDictChunks w <> [] ->
  (2 <= length (popularChunks (chunks w)))%nat ->
  unique_hashes (chunks (fst (parse env w content))) /\
  (2 <= length (popularChunks (chunks (fst (parse env w content)))))%nat /\
  sdchDictChunks (fst (parse env w content)) = sdchDictChunks w /\
  dictraw (fst (parse env w content)) = dictraw w.
Proof.
  intros U NE Two.
  destruct (parse_cases w content) as [(C & A & D)|(w' & C & A & D & E)].
  - rewrite C, A, D. auto.
  - assert (U' : unique_hashes (chunks w'))
      by (rewrite C; now apply fold_upsert_unique_hashes).
    assert (Two' : (2 <= length (popularChunks (chunks w')))%nat).
    { rewrite C.
      pose proof (popular_count_grows (chunks_of content) (chunks w) U).
      lia. }
    rewrite E, makeDict_two_candidates by (rewrite ?A; assumption).
    cbn [fst]. rewrite A, D. auto.
Qed.

(** X11. Once an active set exists and the query returns two candidates
    or more, no ingestion changes the active set or writes the file
    "dictraw" again, whatever is ingested and whatever fails. *)
Theorem dictionary_frozen_from_two_candidates
    (w : World) (contents : list bytes) :
  unique_hashes (chunks w) ->
  sdchDictChunks w <> [] ->
  (2 <= length (popularChunks (chunks w)))%nat ->
  sdchDictChunks (ingest_all env contents w) = sdchDictChunks w /\
  dictraw (ingest_all env contents w) = dictraw w.
Proof.
  revert w; induction contents as [|c contents IH]; intros w U NE Two;
    [split; reflexivity|].
  destruct (parse_frozen w c U NE Two) as (U' & Two' & A & D).
  cbn [ingest_all fold_left]. fold (ingest_all env contents).
  rewrite <- A, <- D. apply IH; [exact U' | now rewrite A | exact Two'].
Qed.

End TableFacts.

Lemma twice_world_table_ok : table_ok (chunks Sample.twice_world).
Proof.
  split.
  - unfold unique_hashes. vm_compute.
    repeat constructor; simpl; intros H;
      repeat (destruct H as [H|H]; [discriminate|]); exact H.
  - repeat constructor; try discriminate; try reflexivity;
      unfold count; simpl; lia.
Defined.

Lemma parse_keeps_table_ok_witness :
  table_ok
    (chunks (fst (parse Sample.env Sample.twice_world [x20; x40; x01]))).
Proof.
  apply (parse_keeps_table_ok Sample.env Sample.twice_world
           [x20; x40; x01]).
  exact twice_world_table_ok.
Defined.

Lemma parse_never_forgets_witness :
  (forall h,
     count_of (chunks Sample.twice_world) h <=
     count_of (chunks (fst (parse Sample.env Sample.twice_world [x40]))) h) /\
  (forall h,
     In h (map fst (popularChunks (chunks Sample.twice_world))) ->
     In h (map fst (popularChunks
                      (chunks (fst (parse Sample.env Sample.twice_world
                                      [x40])))))).
Proof.
  apply (parse_never_forgets Sample.env Sample.twice_world [x40]).
  exact (proj1 twice_world_table_ok).
Defined.

Lemma dictionary_frozen_from_two_candidates_witness :
  sdchDictChunks
    (ingest_all Sample.env [[x40]; [x40]; [x20; x01]] Sample.twice_world) =
    sdchDictChunks Sample.twice_world /\
  dictraw
    (ingest_all Sample.env [[x40]; [x40]; [x20; x01]] Sample.twice_world) =
    dictraw Sample.twice_world.
Proof.
  apply (dictionary_frozen_from_two_candidates Sample.env Sample.twice_world
           [[x40]; [x40]; [x20; x01]]).
  - exact (proj1 twice_world_table_ok).
  - discriminate.
  - vm_compute. lia.
Defined.

(** ** The first two ingestions of a content *)

Lemma row_of_absent (k : Z) (l : list bytes) (h : bytes) :
  ~ In h (map Sha1.Sum l) ->
  select_count (map (row_of k) l) h = None /\
  filter (fun r => negb (blob_eqb (hash r) h)) (map (row_of k) l) =
    map (row_of k) l.
Proof.
  induction l as [|c l IH]; simpl; intros NI; [split; reflexivity|].
  assert (E : blob_eqb (Sha1.Sum c) h = false)
    by (apply blob_eqb_neq; intros E; apply NI; now left).
  rewrite E. simpl.
  destruct IH as [S F]; [intros I; apply NI; now right|].
  now rewrite S, F.
Qed.

(** Chunks with distinct digests, none of which has a row: each gets a
    row with the count 1, in the order of the chunks. *)
Lemma fold_upsert_fresh (post pre : list bytes) :
  NoDup (map Sha1.Sum (pre ++ post)) ->
  fold_left upsert post (map (row_of 1) pre) = map (row_of 1) (pre ++ post).
Proof.
  revert pre; induction post as [|c post IH]; intros pre N;
    [now rewrite app_nil_r|].
  simpl. unfold upsert at 2, sqlUpSert.
  assert (NI : ~ In (Sha1.Sum c) (map Sha1.Sum pre)).
  { rewrite map_app in N. simpl in N. apply NoDup_remove_2 in N.
    intros I. apply N, in_or_app. now left. }
  destruct (row_of_absent 1 pre (Sha1.Sum c) NI) as [-> ->].
  change (map (row_of 1) pre ++ [mkRow c (Sha1.Sum c) 1])
    with (map (row_of 1) pre ++ map (row_of 1) [c]).
  rewrite <- map_app, IH by (now rewrite <- app_assoc).
  now rewrite <- app_assoc.
Qed.

(** The same chunks again: each row moves from the count [k] to the
    count [1 + k]. *)
Lemma fold_upsert_again (k : Z) (post pre : list bytes) :
  NoDup (map Sha1.Sum (pre ++ post)) ->
  fold_left upsert post (map (row_of k) post ++ map (row_of (1 + k)) pre) =
  map (row_of (1 + k)) (pre ++ post).
Proof.
  revert pre; induction post as [|c post IH]; intros pre N;
    [now rewrite app_nil_r|].
  cbn [fold_left map app]. unfold upsert at 2, sqlUpSert.
  cbn [select_count filter hash row_of]. rewrite blob_eqb_refl.
  cbn [negb].
  assert (NI : ~ In (Sha1.Sum c) (map Sha1.Sum post ++ map Sha1.Sum pre)).
  { rewrite map_app in N. simpl in N. apply NoDup_remove_2 in N.
    intros I. apply N, in_or_app. apply in_app_or in I. tauto. }
  rewrite filter_app.
  destruct (row_of_absent k post (Sha1.Sum c)) as [_ ->];
    [intros I; apply NI, in_or_app; now left|].
  destruct (row_of_absent (1 + k) pre (Sha1.Sum c)) as [_ ->];
    [intros I; apply NI, in_or_app; now right|].
  change [mkRow c (Sha1.Sum c) (1 + count (row_of k c))]
    with (map (row_of (1 + k)) [c]).
  rewrite <- app_assoc, <- map_app, IH by (now rewrite <- app_assoc).
  now rewrite <- app_assoc.
Qed.

Lemma popularChunks_seen_once (cs : list bytes) :
  popularChunks (map (row_of 1) cs) = [].
Proof.
  unfold popularChunks, popular_rows.
  replace (filter _ (map (row_of 1) cs)) with (@nil Row); [reflexivity|].
  induction cs as [|c cs IH]; simpl; [reflexivity | exact IH].
Qed.

Lemma popularChunks_seen_twice (cs : list bytes) :
  Permutation (map fst (popularChunks (map (row_of 2) cs)))
              (map Sha1.Sum cs).
Proof.
  unfold popularChunks. rewrite map_map. simpl.
  rewrite (Permutation_map hash (popular_rows_perm (map (row_of 2) cs))).
  replace (filter _ (map (row_of 2) cs)) with (map (row_of 2) cs).
  - now rewrite map_map.
  - induction cs as [|c cs IH]; simpl; [reflexivity | now rewrite <- IH].
Qed.

Lemma makeDict_bootstrap_first (env : Env) (w : World) :
  db_query_succeeds env ->
  sdchDictChunks w = [] ->
  makeDict env w =
  (set_sdchDictChunks w (map fst (popularChunks (chunks w))), None).
Proof.
  intros Q A. unfold makeDict.
  now rewrite (needToUpdate_bootstrap env w Q A).
Qed.

(** One ingestion while there is no active set. *)
Lemma parse_bootstrap {rollsum : RollSumLib} (env : Env) (w : World)
    (content : bytes) :
  db_writes_succeed env ->
  db_query_succeeds env ->
  sdchDictChunks w = [] ->
  chunks (fst (parse env w content)) =
    fold_left upsert (chunks_of content) (chunks w) /\
  sdchDictChunks (fst (parse env w content)) =
    map fst (popularChunks (fold_left upsert (chunks_of content) (chunks w)))
  /\ dictraw (fst (parse env w content)) = dictraw w.
Proof.
  intros OK Q A. rewrite (parse_ok env w content OK).
  rewrite makeDict_bootstrap_first by assumption.
  repeat split.
Qed.

(** X12. A content whose chunks have distinct digests, ingested into an
    empty table with no active set: the first ingestion stores every
    chunk with the count 1 and finds no candidate; the second raises
    every count to 2 and adopts exactly the digests of the chunks as the
    active set.  Neither writes the file "dictraw". *)
Theorem first_two_ingestions
    (rollsum : RollSumLib) (env : Env) (w : World) (content : bytes) :
  db_writes_succeed env ->
  db_query_succeeds env ->
  chunks w = [] ->
  sdchDictChunks w = [] ->
  NoDup (map Sha1.Sum (chunks_of content)) ->
  let w1 := fst (parse env w content) in
  let w2 := fst (parse env w1 content) in
  chunks w1 = map (row_of 1) (chunks_of content) /\
  sdchDictChunks w1 = [] /\
  dictraw w1 = dictraw w /\
  chunks w2 = map (row_of 2) (chunks_of content) /\
  Permutation (sdchDictChunks w2) (map Sha1.Sum (chunks_of content)) /\
  dictraw w2 = dictraw w.
Proof.
  intros OK Q T A N w1 w2.
  destruct (parse_bootstrap env w content OK Q A) as (T1 & A1 & D1).
  fold w1 in T1, A1, D1.
  pose proof (fold_upsert_fresh (chunks_of content) [] N) as F1.
  cbn [map app] in F1. rewrite T, F1 in T1, A1.
  rewrite popularChunks_seen_once in A1.
  destruct (parse_bootstrap env w1 content OK Q A1) as (T2 & A2 & D2).
  fold w2 in T2, A2, D2.
  pose proof (fold_upsert_again 1 (chunks_of content) [] N) as F.
  cbn [map app] in F. rewrite app_nil_r in F.
  change (1 + 1) with 2 in F. rewrite T1, F in T2, A2.
  split; [exact T1|]. split; [exact A1|]. split; [exact D1|].
  split; [exact T2|]. split; [|now rewrite D2].
  rewrite A2. apply popularChunks_seen_twice.
Qed.

(** The content [20 07 19 03 40] has the two chunks [20] and [07 19]. *)
Lemma first_two_ingestions_witness :
  let w1 :=
    fst (parse Sample.env Sample.empty_world [x20; x07; x19; x03; x40]) in
  let w2 := fst (parse Sample.env w1 [x20; x07; x19; x03; x40]) in
  chunks w1 = map (row_of 1) (chunks_of [x20; x07; x19; x03; x40]) /\
  sdchDictChunks w1 = [] /\
  dictraw w1 = dictraw Sample.empty_world /\
  chunks w2 = map (row_of 2) (chunks_of [x20; x07; x19; x03; x40]) /\
  Permutation (sdchDictChunks w2)
    (map Sha1.Sum (chunks_of [x20; x07; x19; x03; x40])) /\
  dictraw w2 = dictraw Sample.empty_world.
Proof.
  apply (first_two_ingestions Sample.window_rollsum Sample.env
           Sample.empty_world [x20; x07; x19; x03; x40]
           sample_db_writes_succeed sample_db_query_succeeds
           eq_refl eq_refl).
  vm_compute.
  repeat constructor; simpl; intros H;
    repeat (destruct H as [H|H]; [discriminate|]); exact H.
Defined.

(** ** The counters, [Stats] and [New] *)

Lemma iter_uint64_incr (n : nat) (x : Z) :
  is_uint64 x -> Nat.iter n uint64_incr x = (x + Z.of_nat n) mod 2 ^ 64.
Proof.
  unfold is_uint64. intros U. induction n as [|n IH].
  - simpl. rewrite Z.add_0_r. symmetry. now apply Z.mod_small.
  - rewrite Nat.iter_succ, IH. unfold uint64_incr.
    rewrite Zplus_mod_idemp_l. f_equal. lia.
Qed.

Section CounterFacts.
Context {rollsum : RollSumLib}.
Variable env : Env.

(** [match] is never assigned, so [d.totalBytesDup] never moves. *)
Lemma parse_totalBytesDup (w : World) (content : bytes) :
  is_uint64 (totalBytesDup w) ->
  totalBytesDup (fst (parse env w content)) = totalBytesDup w.
Proof.
  intros U. unfold parse.
  destruct (db_Begin env); [reflexivity|].
  destruct (tx_Prepare env); [reflexivity|].
  destruct (parse_loop env content _) as [v [err|]]; [reflexivity|].
  rewrite uint64_add_0 by exact U.
  destruct (stmt_Close env); [reflexivity|].
  destruct (tx_Commit env); [reflexivity|].
  now rewrite makeDict_totalBytesDup.
Qed.

(** Every byte read is counted, committed or not. *)
Lemma parse_totalBytesIn (w : World) (content : bytes) :
  db_Begin env = None ->
  tx_Prepare env = None ->
  (forall n, stmt_Exec env n = None) ->
  totalBytesIn (fst (parse env w content)) =
  Nat.iter (length content) uint64_incr (totalBytesIn w).
Proof.
  intros B P X. unfold parse.
  rewrite B, P, (parse_loop_ok env _ _ X). cbn [bytesIn].
  destruct (stmt_Close env); [reflexivity|].
  destruct (tx_Commit env); [reflexivity|].
  now rewrite makeDict_totalBytesIn.
Qed.

Lemma ingest_all_counters (contents : list bytes) (w : World) :
  db_Begin env = None ->
  tx_Prepare env = None ->
  (forall n, stmt_Exec env n = None) ->
  is_uint64 (totalBytesDup w) ->
  is_uint64 (totalBytesIn w) ->
  totalBytesDup (ingest_all env contents w) = totalBytesDup w /\
  totalBytesIn (ingest_all env contents w) =
    (totalBytesIn w + Z.of_nat (length (concat contents))) mod 2 ^ 64.
Proof.
  intros B P X. revert w; induction contents as [|c contents IH];
    intros w UD UI.
  - simpl. rewrite Z.add_0_r. split; [reflexivity|].
    symmetry. now apply Z.mod_small.
  - change (ingest_all env (c :: contents) w)
      with (ingest_all env contents (fst (parse env w c))).
    cbn [concat].
    pose proof (parse_totalBytesDup w c UD) as D.
    pose proof (parse_totalBytesIn w c B P X) as I.
    rewrite (iter_uint64_incr _ _ UI) in I.
    destruct (IH (fst (parse env w c))) as [D' I'].
    + now rewrite D.
    + rewrite I. apply Z.mod_pos_bound. lia.
    + rewrite D', D, I', I. split; [reflexivity|].
      rewrite Zplus_mod_idemp_l, length_app. f_equal. lia.
Qed.

(** On a process without active set, [makeDict] does not write. *)
Lemma makeDict_bootstrap_dictraw (w : World) :
  sdchDictChunks w = [] -> dictraw (fst (makeDict env w)) = dictraw w.
Proof.
  intros A. unfold makeDict, needToUpdate.
  destruct (db_Query env); [reflexivity|].
  destruct (scan_rows _) as [contents hashes].
  destruct (rows_Err env); [reflexivity|].
  now rewrite A.
Qed.

(** X13. In a process started by [New], [Stats] reports 0 matched
    bytes whatever has been ingested, and as total the number of bytes
    ingested, modulo 2^64; the bytes count whether or not their
    transaction was committed. *)
Theorem Stats_after_ingestion
    (oenv : OpenEnv) (table : option Table) (file : option bytes)
    (w : World) (contents : list bytes) :
  New oenv table file = inl w ->
  db_Begin env = None ->
  tx_Prepare env = None ->
  (forall n, stmt_Exec env n = None) ->
  Stats (ingest_all env contents w) =
  Sprintf_matched 0 (Z.of_nat (length (concat contents)) mod 2 ^ 64).
Proof.
  intros N B P X. unfold New in N.
  destruct (sql_Open oenv); [discriminate|].
  destruct (db_Ping oenv); [discriminate|].
  destruct (db_Exec_create oenv); [discriminate|].
  injection N as <-.
  destruct (ingest_all_counters contents
              (mkWorld (match table with Some t => t | None => [] end)
                 [] 0 0 file []) B P X) as [D I];
    try (unfold is_uint64; simpl; lia).
  unfold Stats. rewrite D, I. reflexivity.
Qed.

(** X14. [New] keeps the rows of an existing table and the dictionary
    file, and starts without active set and with both counters at 0;
    the first ingestion after it never writes the file "dictraw",
    whatever the table holds. *)
Theorem New_starts_without_active_set
    (oenv : OpenEnv) (table : option Table) (file : option bytes)
    (w : World) (content : bytes) :
  New oenv table file = inl w ->
  chunks w = match table with Some t => t | None => [] end /\
  sdchDictChunks w = [] /\
  totalBytesDup w = 0 /\
  totalBytesIn w = 0 /\
  dictraw w = file /\
  dictraw (fst (parse env w content)) = file.
Proof.
  intros N. unfold New in N.
  destruct (sql_Open oenv); [discriminate|].
  destruct (db_Ping oenv); [discriminate|].
  destruct (db_Exec_create oenv); [discriminate|].
  injection N as <-. repeat split.
  destruct (parse_cases env
              (mkWorld (match table with Some t => t | None => [] end)
                 [] 0 0 file []) content)
    as [(_ & _ & D)|(w' & _ & A & D & E)]; [exact D|].
  now rewrite E, makeDict_bootstrap_dictraw.
Qed.

End CounterFacts.

Lemma Stats_after_ingestion_witness :
  Stats (ingest_all Sample.env [[x20; x01]; [x40]] Sample.empty_world) =
  Sprintf_matched 0 3.
Proof.
  exact (Stats_after_ingestion Sample.env Faults.open_ok None None
           Sample.empty_world [[x20; x01]; [x40]]
           eq_refl eq_refl eq_refl (fun _ => eq_refl)).
Defined.

Lemma New_starts_without_active_set_witness :
  chunks Sample.restarted_world = [row_of 2 [x20]] /\
  sdchDictChunks Sample.restarted_world = [] /\
  totalBytesDup Sample.restarted_world = 0 /\
  totalBytesIn Sample.restarted_world = 0 /\
  dictraw Sample.restarted_world = None /\
  dictraw (fst (parse Sample.env Sample.restarted_world [x40; x40])) = None.
Proof.
  exact (New_starts_without_active_set Sample.env Faults.open_ok
           (Some [row_of 2 [x20]]) None Sample.restarted_world [x40; x40]
           eq_refl).
Defined.

Module FormatFacts.
Import String.

Example Sprintf_matched_text :
  Sprintf_matched 0 1234 = "matched 0 out of 1234"%string.
Proof. reflexivity. Qed.

End FormatFacts.

(** ** [sliceslice] *)

(** X15. [Less] is a strict total order on byte strings: nothing is
    less than itself, the relation is transitive, and of two different
    byte strings exactly one is less than the other.  Hence sorted data
    has a single arrangement: whatever [sort.Sort] does, the slice ends
    as the insertion sort of the model leaves it. *)
Theorem sliceslice_Less_strict_total_order :
  (forall a, sliceslice_Less a a = false) /\
  (forall a b c,
     sliceslice_Less a b = true -> sliceslice_Less b c = true ->
     sliceslice_Less a c = true) /\
  (forall a b, a <> b -> sliceslice_Less a b = negb (sliceslice_Less b a)) /\
  (forall l sorted,
     Permutation l sorted ->
     StronglySorted (fun a b => sliceslice_Less b a = false) sorted ->
     sorted = sort_Sort sliceslice_Less l).
Proof.
  unfold sliceslice_Less. repeat split.
  - intros a. now rewrite bytes_Compare_refl.
  - intros a b c Lab%Z.ltb_lt Lbc%Z.ltb_lt. apply Z.ltb_lt.
    pose proof (bytes_Compare_trans a b c ltac:(lia) ltac:(lia)) as Le.
    destruct (Z.eq_dec (bytes_Compare a c) 0) as [E|NE]; [|lia].
    apply bytes_Compare_eq in E. subst c.
    rewrite (bytes_Compare_antisym a b) in Lbc. lia.
  - intros a b NE. rewrite (bytes_Compare_antisym a b).
    assert (bytes_Compare a b <> 0)
      by (intros E; now apply bytes_Compare_eq in E).
    destruct (bytes_Compare a b <? 0) eqn:L;
      [apply Z.ltb_lt in L | apply Z.ltb_ge in L];
      symmetry;
      [apply negb_true_iff, Z.ltb_ge | apply negb_false_iff, Z.ltb_lt];
      lia.
  - intros l sorted P S. now apply sliceslice_sort_unique.
Qed.

Lemma length_assign {A : Type} (l : list A) (i : nat) (x : A) :
  length (assign l i x) = length l.
Proof.
  revert i; induction l as [|y l IH]; intros [|i]; simpl; auto.
Qed.

Lemma nth_error_assign {A : Type} (l : list A) (i k : nat) (x : A) :
  (i < length l)%nat ->
  nth_error (assign l i x) k = if (k =? i)%nat then Some x else nth_error l k.
Proof.
  revert i k; induction l as [|y l IH]; intros i k Hi; simpl in Hi; [lia|].
  destruct i as [|i], k as [|k]; simpl; try reflexivity.
  apply IH. lia.
Qed.

(** One assignment takes the old element out of the slice and puts the
    new one in. *)
Lemma count_occ_assign (l : list bytes) (i : nat) (a x y : bytes) :
  nth_error l i = Some a ->
  (count_occ bytes_eq_dec (assign l i x) y
   + (if bytes_eq_dec a y then 1 else 0)
   = count_occ bytes_eq_dec l y + (if bytes_eq_dec x y then 1 else 0))%nat.
Proof.
  revert i; induction l as [|z l IH]; intros [|i] N; simpl in N;
    try discriminate.
  - injection N as ->. simpl.
    destruct (bytes_eq_dec a y), (bytes_eq_dec x y); lia.
  - specialize (IH i N). simpl. destruct (bytes_eq_dec z y); lia.
Qed.

Lemma index_Some {A : Type} (ss : list A) (i : Z) (a : A) :
  index ss i = Some a ->
  0 <= i /\ nth_error ss (Z.to_nat i) = Some a /\
  (Z.to_nat i < length ss)%nat.
Proof.
  unfold index. destruct (i <? 0) eqn:N; [discriminate|].
  apply Z.ltb_ge in N. intros E. repeat split; [exact N | exact E|].
  apply nth_error_Some. congruence.
Qed.

(** X16. [Swap] with two indices in range exchanges the two elements
    and nothing else: the slice keeps its length and its elements, each
    as often as before, and a second [Swap] with the same indices
    restores it. *)
Theorem sliceslice_Swap_exchanges
    (ss : list bytes) (i j : Z) (a b : bytes) :
  index ss i = Some a ->
  index ss j = Some b ->
  exists ss',
    sliceslice_Swap ss i j = Some ss' /\
    Permutation ss ss' /\
    sliceslice_Len ss' = sliceslice_Len ss /\
    index ss' i = Some b /\
    index ss' j = Some a /\
    (forall k, k <> i -> k <> j -> index ss' k = index ss k) /\
    sliceslice_Swap ss' i j = Some ss.
Proof.
  intros Ia Ib.
  pose proof (index_Some ss i a Ia) as (Pi & Na & Li).
  pose proof (index_Some ss j b Ib) as (Pj & Nb & Lj).
  assert (Ni : (i <? 0) = false) by (apply Z.ltb_ge; lia).
  assert (Nj : (j <? 0) = false) by (apply Z.ltb_ge; lia).
  set (ni := Z.to_nat i) in *. set (nj := Z.to_nat j) in *.
  set (ss' := assign (assign ss ni b) nj a).
  assert (Get : forall k,
             nth_error ss' k =
             if (k =? nj)%nat then Some a
             else if (k =? ni)%nat then Some b else nth_error ss k).
  { intros k. unfold ss'.
    rewrite nth_error_assign by (now rewrite length_assign).
    now rewrite nth_error_assign by exact Li. }
  assert (Gi : nth_error ss' ni = Some b).
  { rewrite Get, Nat.eqb_refl.
    destruct (ni =? nj)%nat eqn:E; [|reflexivity].
    apply Nat.eqb_eq in E. congruence. }
  assert (Gj : nth_error ss' nj = Some a)
    by (now rewrite Get, Nat.eqb_refl).
  assert (Len : length ss' = length ss)
    by (unfold ss'; now rewrite !length_assign).
  exists ss'. unfold sliceslice_Swap, sliceslice_Len, index.
  rewrite Ni, Nj. fold ni nj. rewrite Na, Nb, Gi, Gj, Len.
  split; [reflexivity|]. split; [|split; [reflexivity|]].
  - (* the same elements *)
    apply (Permutation_count_occ bytes_eq_dec). intros y. unfold ss'.
    destruct (Nat.eq_dec ni nj) as [E|NE].
    + assert (a = b) by congruence. subst b.
      pose proof (count_occ_assign ss ni a a y Na) as C1.
      assert (N1 : nth_error (assign ss ni a) nj = Some a)
        by (rewrite nth_error_assign by exact Li;
            rewrite <- E, Nat.eqb_refl; reflexivity).
      pose proof (count_occ_assign _ nj a a y N1) as C2. lia.
    + pose proof (count_occ_assign ss ni a b y Na) as C1.
      assert (N1 : nth_error (assign ss ni b) nj = Some b).
      { rewrite nth_error_assign by exact Li.
        destruct (nj =? ni)%nat eqn:E; [|exact Nb].
        apply Nat.eqb_eq in E. congruence. }
      pose proof (count_occ_assign _ nj b a y N1) as C2. lia.
  - split; [reflexivity|]. split; [reflexivity|]. split.
    + intros k Ki Kj. destruct (k <? 0) eqn:Nk; [reflexivity|].
      apply Z.ltb_ge in Nk. rewrite Get.
      destruct (Z.to_nat k =? nj)%nat eqn:E1;
        [apply Nat.eqb_eq in E1; unfold nj in E1; lia|].
      destruct (Z.to_nat k =? ni)%nat eqn:E2;
        [apply Nat.eqb_eq in E2; unfold ni in E2; lia|].
      reflexivity.
    + (* the second swap *)
      f_equal. apply nth_error_ext. intros k.
      rewrite nth_error_assign by (now rewrite length_assign, Len).
      rewrite nth_error_assign by (now rewrite Len).
      rewrite Get.
      destruct (k =? nj)%nat eqn:E1; [apply Nat.eqb_eq in E1; congruence|].
      destruct (k =? ni)%nat eqn:E2; [apply Nat.eqb_eq in E2; congruence|].
      reflexivity.
Qed.

Lemma sliceslice_Swap_exchanges_witness :
  exists ss',
    sliceslice_Swap [[x03]; [x01]; [x02]] 0 2 = Some ss' /\
    Permutation [[x03]; [x01]; [x02]] ss' /\
    sliceslice_Len ss' = sliceslice_Len [[x03]; [x01]; [x02]] /\
    index ss' 0 = Some [x02] /\
    index ss' 2 = Some [x03] /\
    (forall k, k <> 0 -> k <> 2 ->
               index ss' k = index [[x03]; [x01]; [x02]] k) /\
    sliceslice_Swap ss' 0 2 = Some [[x03]; [x01]; [x02]].
Proof.
  exact (sliceslice_Swap_exchanges [[x03]; [x01]; [x02]] 0 2 [x03] [x02]
           eq_refl eq_refl).
Defined.

(** ** The threshold and the reachable states *)

(** X17. For an active set of up to 128 hashes and [uniq] up to 256 the
    comparison made on [float64] is the exact one: [change] is true
    exactly when [uniq] is more than a tenth of the length of the active
    set. *)
Theorem rebuild_threshold_is_one_tenth (uniq : Z) (active : list bytes) :
  (1 <= length active <= 128)%nat ->
  0 <= uniq <= 256 ->
  exceeds_threshold uniq active = true <->
  Z.of_nat (length active) < 10 * uniq.
Proof.
  intros Hn Hu. rewrite (exceeds_threshold_exact uniq active Hn Hu).
  apply Z.ltb_lt.
Qed.

(** Ten active hashes: one unique hash is not enough, two are. *)
Lemma rebuild_threshold_is_one_tenth_witness :
  (exceeds_threshold 1 (repeat [] 10) = true <-> 10 < 10 * 1) /\
  (exceeds_threshold 2 (repeat [] 10) = true <-> 10 < 10 * 2).
Proof.
  split.
  - apply (rebuild_threshold_is_one_tenth 1 (repeat [] 10)); simpl; lia.
  - apply (rebuild_threshold_is_one_tenth 2 (repeat [] 10)); simpl; lia.
Defined.

Lemma makeDict_active_cases (env : Env) (w : World) :
  sdchDictChunks (fst (makeDict env w)) = sdchDictChunks w \/
  sdchDictChunks (fst (makeDict env w)) = map fst (popularChunks (chunks w)).
Proof.
  unfold makeDict, needToUpdate.
  destruct (db_Query env); [now left|].
  rewrite scan_rows_eq.
  destruct (rows_Err env); [now left|].
  destruct (length (sdchDictChunks w) =? 0)%nat; [now right|].
  destruct (exceeds_threshold _ _); [|now left].
  destruct (ioutil_WriteFile env) as [[remains err]|]; [now left | now right].
Qed.

(** [change] is never true with no candidate or with several. *)
Lemma needToUpdate_fires_on_one_candidate (env : Env) (w : World) :
  incl (sdchDictChunks w) (map fst (popularChunks (chunks w))) ->
  snd (snd (needToUpdate env w)) = true ->
  length (popularChunks (chunks w)) = 1%nat.
Proof.
  intros Sub Fire.
  destruct (db_Query env) as [e|] eqn:Q;
    [unfold needToUpdate in Fire; now rewrite Q in Fire|].
  destruct (rows_Err env) as [e|] eqn:R.
  { unfold needToUpdate in Fire. rewrite Q, R in Fire.
    now destruct (scan_rows _). }
  destruct (sdchDictChunks w) as [|h active] eqn:A.
  { now rewrite (needToUpdate_bootstrap env w (conj Q R) A) in Fire. }
  destruct (popularChunks (chunks w)) as [|p [|p' ps]] eqn:P.
  - destruct (Sub h (or_introl eq_refl)).
  - reflexivity.
  - rewrite (needToUpdate_two_candidates env w (conj Q R)) in Fire;
      [discriminate | now rewrite A | rewrite P; simpl; lia].
Qed.

Section ReachableFacts.
Context {rollsum : RollSumLib}.
Variable env : Env.

Lemma parse_active_is_popular (w : World) (content : bytes) :
  active_is_popular w -> active_is_popular (fst (parse env w content)).
Proof.
  intros [U Sub]. unfold active_is_popular.
  destruct (parse_cases env w content)
    as [(C & A & _)|(w' & C & A & _ & E)].
  - now rewrite C, A.
  - rewrite E, makeDict_chunks, C.
    split; [now apply fold_upsert_unique_hashes|].
    destruct (makeDict_active_cases env w') as [-> | ->].
    + rewrite A. intros h I. apply popular_hashes_grow; auto.
    + rewrite C. apply incl_refl.
Qed.

(** X18. From a state in which every active hash is a candidate, as in
    a process just started by [New], and after any ingestions, every
    active hash is still a candidate, and [change] can only be true while
    the query returns exactly one chunk: "dictraw" is only ever written
    with the content of a single chunk. *)
Theorem rebuild_only_with_one_candidate
    (w : World) (contents : list bytes) :
  active_is_popular w ->
  active_is_popular (ingest_all env contents w) /\
  (snd (snd (needToUpdate env (ingest_all env contents w))) = true ->
   length (popularChunks (chunks (ingest_all env contents w))) = 1%nat).
Proof.
  intros J.
  assert (J' : active_is_popular (ingest_all env contents w)).
  { revert w J; induction contents as [|c contents IH]; intros w J;
      [exact J|].
    change (ingest_all env (c :: contents) w)
      with (ingest_all env contents (fst (parse env w c))).
    now apply IH, parse_active_is_popular. }
  split; [exact J'|].
  apply needToUpdate_fires_on_one_candidate, J'.
Qed.

End ReachableFacts.

Lemma rebuild_only_with_one_candidate_witness :
  active_is_popular
    (ingest_all Sample.env [[x20]; [x20]; [x20]] Sample.empty_world) /\
  (snd (snd (needToUpdate Sample.env
               (ingest_all Sample.env [[x20]; [x20]; [x20]]
                  Sample.empty_world))) = true ->
   length (popularChunks
             (chunks (ingest_all Sample.env [[x20]; [x20]; [x20]]
                        Sample.empty_world))) = 1%nat).
Proof.
  apply (rebuild_only_with_one_candidate Sample.env Sample.empty_world
           [[x20]; [x20]; [x20]]).
  split; [constructor | intros h []].
Defined.
